(** * Creational patterns: prototype tree, abstract factory, lazy singleton

    A shallow embedding of [main.go]: the cloneable [File]/[Folder] tree with
    its indented rendering, the provider-selected [AuthFactory], and the
    [sync.Once]-guarded [getSingleton]. *)

From stdpp Require Import gmap strings list.
From Stdlib Require Import ZArith Lia DecimalString.

Local Open Scope Z_scope.
#[local] Set Warnings "-clear-no-such-hyp".

(** ** The parts of the Go runtime and standard library the program uses *)

Module Go.

(** Go's [int] on a 64-bit platform. *)
Definition maxInt : Z := 2 ^ 63 - 1.
Definition minInt : Z := - 2 ^ 63.

(** Two's-complement wrap-around of [int] arithmetic. *)
Definition wrap (z : Z) : Z := (z + 2 ^ 63) mod 2 ^ 64 - 2 ^ 63.

(** A call either returns or panics with a message. *)
Inductive exec (A : Type) : Type :=
| Ret (a : A)
| Panic (msg : string).
Arguments Ret {A} a.
Arguments Panic {A} msg.

(** The value an [error] interface holds; [None] of [option error] is Go's
    [nil] error. *)
Inductive error : Type :=
| errorString (msg : string).

Definition nil_dereference : string :=
  "runtime error: invalid memory address or nil pointer dereference".
Definition index_out_of_range : string :=
  "runtime error: index out of range".

(** The line feed of the format string's [\n]. *)
Definition nl : string := String (Ascii.ascii_of_nat 10) "".

(** [s] written [n] times. *)
Fixpoint repeat_string (s : string) (n : nat) : string :=
  match n with
  | O => ""
  | S k => s +:+ repeat_string s k
  end.

(** [strings.Repeat]: panics on a negative count and when
    [len(s) * count] overflows [int]. *)
Definition Repeat (s : string) (count : Z) : exec string :=
  if count <? 0 then Panic "strings: negative Repeat count"
  else if maxInt <? Z.of_nat (String.length s) * count
       then Panic "strings: Repeat output length overflow"
       else Ret (repeat_string s (Z.to_nat count)).

(** [io.Writer]: one [Write] call takes the sink to its next state and
    reports an error or [nil]. *)
Class Writer (W : Type) : Type :=
  Write : W -> string -> W * option error.

(** [fmt.Fprintf(w, "%s%s\n", a, b)]: the formatted text goes to the
    sink in a single [Write]; the byte count is dropped by the callers. *)
Definition Fprintf {W} `{Writer W} (w : W) (a b : string) : W * option error :=
  Write w (a +:+ b +:+ nl).

(** [strings.Builder]: appends, never fails. *)
Definition Builder : Type := string.
#[export] Instance Builder_Writer : Writer Builder :=
  fun sb p => (sb +:+ p, None).

End Go.
Export Go.

(** ** Prototype: the File / Folder tree *)

Record File : Type := { Name : string }.

Record WriteOpts : Type := { Level : Z }.

(** A value of the interface [Node]: [nil], a [*File], or a [*Folder]
    (a [Folder] embeds a [File] and holds the slice [Children]). *)
#[local] Unset Elimination Schemes.
Inductive Node : Type :=
| NilNode
| FilePtr (f : File)
| FolderPtr (file : File) (Children : list Node).
#[local] Set Elimination Schemes.

(** [File.WriteEntry]. *)
Definition File_WriteEntry {W} `{Writer W} (f : File) (w : W) (opts : WriteOpts)
  : W * exec (option error) :=
  match Repeat "    " (Level opts) with
  | Panic m => (w, Panic m)
  | Ret indent => let '(w', err) := Fprintf w indent (Name f) in (w', Ret err)
  end.

(** The loop [for _, v := range f.Children] of [Folder.WriteEntry], over the
    method [entry] of the elements. *)
Fixpoint range_WriteEntry {W} (entry : Node -> W -> W * exec (option error))
  (vs : list Node) (w : W) : W * exec (option error) :=
  match vs with
  | [] => (w, Ret None)
  | v :: vs' =>
      match entry v w with
      | (w', Ret None) => range_WriteEntry entry vs' w'
      | (w', Ret (Some err)) => (w', Ret (Some err))
      | (w', Panic m) => (w', Panic m)
      end
  end.

(** [WriteEntry] dispatched on the dynamic type of the receiver; the
    [FolderPtr] case is [Folder.WriteEntry]. *)
Fixpoint WriteEntry {W} `{Writer W} (n : Node) (w : W) (opts : WriteOpts)
  : W * exec (option error) :=
  match n with
  | NilNode => (w, Panic nil_dereference)
  | FilePtr f => File_WriteEntry f w opts
  | FolderPtr f Children =>
      match File_WriteEntry f w opts with
      | (w1, Ret None) =>
          let opts' := {| Level := wrap (Level opts + 1) |} in
          range_WriteEntry (fun v w' => WriteEntry v w' opts') Children w1
      | (w1, Ret (Some err)) => (w1, Ret (Some err))
      | (w1, Panic m) => (w1, Panic m)
      end
  end.

(** [make([]Node, n)]: [n] nil interface values. *)
Definition make (n : nat) : list Node := replicate n NilNode.

(** The loop [for i, v := range f.Children { clone.Children[i] = v.Clone() }]
    from index [i] on; [cs] is the slice of the clone. *)
Fixpoint range_Clone (clone : Node -> exec Node) (i : nat) (vs cs : list Node)
  : exec (list Node) :=
  match vs with
  | [] => Ret cs
  | v :: vs' =>
      match clone v with
      | Panic m => Panic m
      | Ret c =>
          if (i <? length cs)%nat
          then range_Clone clone (S i) vs' (<[i := c]> cs)
          else Panic index_out_of_range
      end
  end.

(** [Clone] dispatched on the dynamic type of the receiver. *)
Fixpoint Clone (n : Node) : exec Node :=
  match n with
  | NilNode => Panic nil_dereference
  | FilePtr f => Ret (FilePtr {| Name := Name f |})
  | FolderPtr f Children =>
      let clone_Children := make (length Children) in
      let clone_Name := Name f in
      match range_Clone Clone 0 Children clone_Children with
      | Panic m => Panic m
      | Ret cs => Ret (FolderPtr {| Name := clone_Name |} cs)
      end
  end.

(** [Folder.String]: renders into a fresh [strings.Builder] at level 0 and
    drops the error. *)
Definition Folder_String (f : File) (Children : list Node) : exec string :=
  match WriteEntry (FolderPtr f Children) ("" : Builder) {| Level := 0 |} with
  | (sb, Ret _) => Ret sb
  | (_, Panic m) => Panic m
  end.

(** The tree printed by [main]. *)
Definition main_folder : Node :=
  FolderPtr {| Name := "root" |}
    [ FilePtr {| Name := "file1" |};
      FilePtr {| Name := "file2" |};
      FolderPtr {| Name := "subfolder" |}
        [ FilePtr {| Name := "file3" |}; FilePtr {| Name := "file4" |} ] ].


(** A tree built from File and Folder nodes: no nil interface value in it. *)
Fixpoint tree (n : Node) : bool :=
  match n with
  | NilNode => false
  | FilePtr _ => true
  | FolderPtr _ Children => forallb tree Children
  end.

(** Nesting depth of the deepest node below the root (the root is at 0). *)
Fixpoint depth (n : Node) : nat :=
  match n with
  | NilNode => O
  | FilePtr _ => O
  | FolderPtr _ Children => foldr (fun v d => Nat.max (S (depth v)) d) O Children
  end.

(** Every level the render of [n] from [lvl] reaches is a non-negative [int]
    whose indent has an [int] length: true of every tree that fits in
    memory. *)
Definition within_int (lvl : Z) (n : Node) : Prop :=
  0 <= lvl /\ 4 * (lvl + Z.of_nat (depth n)) <= maxInt.

(** *** Sinks used to observe a render *)

(** A sink that keeps every payload it is given and never fails. *)
Definition Recorder : Type := list string.
#[export] Instance Recorder_Writer : Writer Recorder :=
  fun r p => (r ++ [p], None).

(** A sink that wraps another one and logs each [Write] with its result. *)
Definition Logged (W : Type) : Type := (W * list (string * option error))%type.
#[export] Instance Logged_Writer {W} `{Writer W} : Writer (Logged W) :=
  fun l p => let '(w', e) := Write (fst l) p in ((w', snd l ++ [(p, e)]), e).

(** The payloads [n.WriteEntry] sends to a sink that accepts everything,
    and how the call ends there. *)
Definition script (n : Node) (opts : WriteOpts) : list string * exec (option error) :=
  WriteEntry (W := Recorder) n [] opts.

(** Payloads sent one by one until a [Write] fails. *)
Fixpoint feed {W} `{Writer W} (ps : list string) (w : W) : W * option error :=
  match ps with
  | [] => (w, None)
  | p :: ps' =>
      match Write w p with
      | (w', None) => feed ps' w'
      | (w', Some e) => (w', Some e)
      end
  end.

(** [feed], then the outcome [r0] if no [Write] failed. *)
Definition replay {W} `{Writer W} (ps : list string) (r0 : exec (option error)) (w : W)
  : W * exec (option error) :=
  match feed ps w with
  | (w', Some e) => (w', Ret (Some e))
  | (w', None) => (w', r0)
  end.

(** The bytes a [strings.Builder] holds after the payloads [ps]. *)
Definition text_of (ps : list string) : string := foldr String.append "" ps.

(** The payloads and outcome of [File.WriteEntry], and of the loop over the
    children, on a sink that accepts everything. *)
Definition File_script (f : File) (opts : WriteOpts) : list string * exec (option error) :=
  File_WriteEntry (W := Recorder) f [] opts.

Definition range_script (vs : list Node) (opts : WriteOpts)
  : list string * exec (option error) :=
  range_WriteEntry (fun v (r : Recorder) => WriteEntry v r opts) vs [].

(** [v.WriteEntry] on any sink is its script replayed there. *)
Definition replays (v : Node) : Prop :=
  forall W (HW : Writer W) (w : W) (opts : WriteOpts),
    WriteEntry v w opts = replay (script v opts).1 (script v opts).2 w.

(** *** What the render is expected to look like *)

(** The nodes of a tree in pre-order (a folder, then its children in slice
    order), each with its nesting depth counted from [d] at the root. *)
Fixpoint entries (d : nat) (n : Node) : list (nat * string) :=
  match n with
  | NilNode => []
  | FilePtr f => [(d, Name f)]
  | FolderPtr f Children => (d, Name f) :: flat_map (entries (S d)) Children
  end.

(** The line of a node at depth [d]: [4 * d] spaces, the name, a line feed. *)
Definition entry_line (e : nat * string) : string :=
  repeat_string " " (4 * e.1) +:+ e.2 +:+ nl.

(** The attempts a sink sees when it is fed [ps]: each payload with the
    result of its [Write], up to and including the first failure. *)
Fixpoint attempts {W} `{Writer W} (ps : list string) (w : W)
  : list (string * option error) :=
  match ps with
  | [] => []
  | p :: ps' =>
      match Write w p with
      | (w', None) => (p, None) :: attempts ps' w'
      | (_, Some e) => [(p, Some e)]
      end
  end.

(** ** The prototype over a heap of node objects

    The tree above forgets which object a node is.  Here nodes live in a heap:
    a [Node] interface value is nil or the address of a [File] or [Folder]
    object, and a [Folder] object holds the interface values of its slice
    [Children] (the struct and the backing array of its slice are one
    object).  Recursion through the heap is bounded by [fuel]; [None] means
    the fuel ran out before the call ended.  An address with no object
    behind it does not occur in a Go heap; a call on one panics here. *)

Abbreviation loc := positive (only parsing).

Inductive object : Type :=
| FileObj (f : File)
| FolderObj (file : File) (Children : list (option loc)).

Abbreviation heap := (gmap positive object) (only parsing).

(** [&T{...}]: a new object at an address not in use. *)
Definition alloc (h : heap) (o : object) : loc * heap :=
  let l := fresh (dom h) in (l, <[l := o]> h).

(** The loop of [Folder.WriteEntry] over the interface values of the slice. *)
Fixpoint range_WriteEntry_at {W}
  (entry : option loc -> W -> WriteOpts -> option (W * exec (option error)))
  (vs : list (option loc)) (w : W) (opts : WriteOpts)
  : option (W * exec (option error)) :=
  match vs with
  | [] => Some (w, Ret None)
  | v :: vs' =>
      match entry v w opts with
      | None => None
      | Some (w', Ret None) => range_WriteEntry_at entry vs' w' opts
      | Some (w', Ret (Some err)) => Some (w', Ret (Some err))
      | Some (w', Panic m) => Some (w', Panic m)
      end
  end.

(** [v.WriteEntry(w, opts)] for the interface value [v] in the heap [h]. *)
Fixpoint WriteEntry_at {W} `{Writer W} (fuel : nat) (h : heap) (v : option loc)
  (w : W) (opts : WriteOpts) : option (W * exec (option error)) :=
  match fuel with
  | O => None
  | S k =>
      match v with
      | None => Some (w, Panic nil_dereference)
      | Some l =>
          match h !! l with
          | None => Some (w, Panic nil_dereference)
          | Some (FileObj f) => Some (File_WriteEntry f w opts)
          | Some (FolderObj f Children) =>
              match File_WriteEntry f w opts with
              | (w1, Ret None) =>
                  range_WriteEntry_at (WriteEntry_at k h) Children w1
                    {| Level := wrap (Level opts + 1) |}
              | (w1, Ret (Some err)) => Some (w1, Ret (Some err))
              | (w1, Panic m) => Some (w1, Panic m)
              end
          end
      end
  end.

(** [clone.Children[i] = x] for the folder object at [c]. *)
Definition set_child (h : heap) (c : loc) (i : nat) (x : option loc) : exec heap :=
  match h !! c with
  | Some (FolderObj f cs) =>
      if (i <? length cs)%nat
      then Ret (<[c := FolderObj f (<[i := x]> cs)]> h)
      else Panic index_out_of_range
  | _ => Panic nil_dereference
  end.

(** [clone.Name = name] for the folder object at [c]. *)
Definition set_Name (h : heap) (c : loc) (name : string) : heap :=
  match h !! c with
  | Some (FolderObj _ cs) => <[c := FolderObj {| Name := name |} cs]> h
  | Some (FileObj _) => <[c := FileObj {| Name := name |}]> h
  | None => h
  end.

(** The loop of [Folder.Clone] from index [i] on; the clone is at [c]. *)
Fixpoint range_Clone_at (clone : heap -> option loc -> option (exec (loc * heap)))
  (c : loc) (i : nat) (vs : list (option loc)) (h : heap) : option (exec heap) :=
  match vs with
  | [] => Some (Ret h)
  | v :: vs' =>
      match clone h v with
      | None => None
      | Some (Panic m) => Some (Panic m)
      | Some (Ret (x, h')) =>
          match set_child h' c i (Some x) with
          | Panic m => Some (Panic m)
          | Ret h'' => range_Clone_at clone c (S i) vs' h''
          end
      end
  end.

(** [v.Clone()] for the interface value [v]: the address of the copy and the
    heap that holds it. *)
Fixpoint Clone_at (fuel : nat) (h : heap) (v : option loc) : option (exec (loc * heap)) :=
  match fuel with
  | O => None
  | S k =>
      match v with
      | None => Some (Panic nil_dereference)
      | Some l =>
          match h !! l with
          | None => Some (Panic nil_dereference)
          | Some (FileObj f) => Some (Ret (alloc h (FileObj {| Name := Name f |})))
          | Some (FolderObj f Children) =>
              let '(c, h1) :=
                alloc h (FolderObj {| Name := "" |} (replicate (length Children) None)) in
              let h2 := set_Name h1 c (Name f) in
              match range_Clone_at (Clone_at k) c 0 Children h2 with
              | None => None
              | Some (Panic m) => Some (Panic m)
              | Some (Ret h3) => Some (Ret (c, h3))
              end
          end
      end
  end.

(** The addresses of the node objects of the structure under [v]. *)
Fixpoint nodes_at (fuel : nat) (h : heap) (v : option loc) : gset positive :=
  match fuel, v with
  | S k, Some l =>
      match h !! l with
      | Some (FolderObj _ Children) => {[ l ]} ∪ ⋃ (map (nodes_at k h) Children)
      | _ => {[ l ]}
      end
  | _, _ => ∅
  end.

(** [repr A h v n]: in the heap [h] the interface value [v] is the root of
    the tree [n], and every object of it has its address in [A]. *)
#[local] Unset Elimination Schemes.
Inductive repr (A : gset positive) (h : heap) : option loc -> Node -> Prop :=
| repr_nil : repr A h None NilNode
| repr_File l f :
    l ∈ A -> h !! l = Some (FileObj f) -> repr A h (Some l) (FilePtr f)
| repr_Folder l f vs Children :
    l ∈ A -> h !! l = Some (FolderObj f vs) ->
    Forall2 (repr A h) vs Children ->
    repr A h (Some l) (FolderPtr f Children).
#[local] Set Elimination Schemes.

(** A heap with the tree of [main] in it, the root at address 1. *)
Definition main_heap : heap :=
  list_to_map
    [ (1%positive, FolderObj {| Name := "root" |} [Some 2; Some 3; Some 4]%positive);
      (2%positive, FileObj {| Name := "file1" |});
      (3%positive, FileObj {| Name := "file2" |});
      (4%positive, FolderObj {| Name := "subfolder" |} [Some 5; Some 6]%positive);
      (5%positive, FileObj {| Name := "file3" |});
      (6%positive, FileObj {| Name := "file4" |}) ].

(** With fuel [k], cloning a root of the tree [n] returns a copy of [n] made
    of new objects only and leaves every object of the heap as it was. *)
Definition clones (k : nat) (n : Node) : Prop :=
  forall (h : heap) (v : option loc),
    repr (dom h) h v n ->
    exists (x : loc) (h' : heap),
      Clone_at k h v = Some (Ret (x, h')) /\
      (forall l, l ∈ dom h -> h' !! l = h !! l) /\
      repr (dom h' ∖ dom h) h' (Some x) n.

(** ** Abstract factory: [AuthFactory] *)

Record Customer : Type := { Customer_Name : string }.
Record Seller : Type := { Seller_Name : string }.

Definition Customer_SetName (c : Customer) (name : string) : Customer :=
  {| Customer_Name := name |}.
Definition Customer_String (c : Customer) : string := "Customer: " +:+ Customer_Name c.

Definition Seller_SetName (c : Seller) (name : string) : Seller :=
  {| Seller_Name := name |}.
Definition Seller_String (c : Seller) : string := "Seller: " +:+ Seller_Name c.

(** The two implementations of the interface [Provider]. *)
Inductive Provider : Type :=
| YandexAuth
| GoogleAuth.

Definition NewCustomer (p : Provider) : Customer :=
  match p with
  | YandexAuth => Customer_SetName {| Customer_Name := "" |} "Yandex Customer"
  | GoogleAuth => Customer_SetName {| Customer_Name := "" |} "Google Customer"
  end.

Definition NewSeller (p : Provider) : Seller :=
  match p with
  | YandexAuth => Seller_SetName {| Seller_Name := "" |} "Yandex Seller"
  | GoogleAuth => Seller_SetName {| Seller_Name := "" |} "Google Seller"
  end.

Definition AuthFactory (provider : string) : exec Provider :=
  if String.eqb provider "google" then Ret GoogleAuth
  else if String.eqb provider "yandex" then Ret YandexAuth
  else Panic ("unknown provider " +:+ provider).

(** ** Singleton: [getSingleton] run by several goroutines

    Each goroutine runs [getSingleton]; a step is one access to the shared
    variables, and the goroutines interleave in any order.  [once.Do] is
    [sync.Once.Do]: an atomic load of [done], and on the slow path
    [m.Lock()], a second load of [done], the call of [f], and the deferred
    [done.Store(1)] and [m.Unlock()]. *)

(** Where a goroutine stands in [getSingleton]. *)
Inductive pc : Type :=
| AtDo        (* once.Do: if o.done.Load() == 0 *)
| AtLock      (* doSlow: o.m.Lock() *)
| AtCheck     (* doSlow: if o.done.Load() == 0 *)
| AtPrintln   (* f: fmt.Println("Initialize singleton") *)
| AtAssign    (* f: singleton = &singleInstance{} *)
| AtStore     (* deferred o.done.Store(1) *)
| AtUnlock    (* deferred o.m.Unlock() *)
| AtReturn    (* return singleton *)
| Returned (v : option positive).

Record state : Type := {
  singleton : option positive;      (* var singleton *singleInstance; None is nil *)
  once_done : bool;                 (* once.done *)
  once_m : bool;                    (* once.m is held *)
  stdout : list string;             (* the lines printed so far *)
  next_addr : positive;             (* the address of the next allocation *)
  goroutines : list pc
}.

Definition initial (N : nat) : state :=
  {| singleton := None; once_done := false; once_m := false; stdout := [];
     next_addr := 1%positive; goroutines := replicate N AtDo |}.

Definition goto (s : state) (i : nat) (p : pc) : state :=
  {| singleton := singleton s; once_done := once_done s; once_m := once_m s;
     stdout := stdout s; next_addr := next_addr s;
     goroutines := <[i := p]> (goroutines s) |}.

(** One step of goroutine [i] in [getSingleton]; [None] when it is blocked on the mutex, has
    returned, or does not exist. *)
Definition getSingleton_step (i : nat) (s : state) : option state :=
  match goroutines s !! i with
  | None => None
  | Some AtDo => Some (goto s i (if once_done s then AtReturn else AtLock))
  | Some AtLock =>
      if once_m s then None
      else Some (goto {| singleton := singleton s; once_done := once_done s;
                         once_m := true; stdout := stdout s;
                         next_addr := next_addr s; goroutines := goroutines s |}
                   i AtCheck)
  | Some AtCheck => Some (goto s i (if once_done s then AtUnlock else AtPrintln))
  | Some AtPrintln =>
      Some (goto {| singleton := singleton s; once_done := once_done s;
                    once_m := once_m s;
                    stdout := stdout s ++ ["Initialize singleton"];
                    next_addr := next_addr s; goroutines := goroutines s |}
              i AtAssign)
  | Some AtAssign =>
      Some (goto {| singleton := Some (next_addr s); once_done := once_done s;
                    once_m := once_m s; stdout := stdout s;
                    next_addr := Pos.succ (next_addr s);
                    goroutines := goroutines s |}
              i AtStore)
  | Some AtStore =>
      Some (goto {| singleton := singleton s; once_done := true;
                    once_m := once_m s; stdout := stdout s;
                    next_addr := next_addr s; goroutines := goroutines s |}
              i AtUnlock)
  | Some AtUnlock =>
      Some (goto {| singleton := singleton s; once_done := once_done s;
                    once_m := false; stdout := stdout s;
                    next_addr := next_addr s; goroutines := goroutines s |}
              i AtReturn)
  | Some AtReturn => Some (goto s i (Returned (singleton s)))
  | Some (Returned _) => None
  end.

(** The goroutines take their steps in the order [sched]; [None] if a
    scheduled goroutine cannot step. *)
Fixpoint run (sched : list nat) (s : state) : option state :=
  match sched with
  | [] => Some s
  | i :: sched' =>
      match getSingleton_step i s with
      | None => None
      | Some s' => run sched' s'
      end
  end.

(** Holding [once.m]: between [Lock] and [Unlock] of [doSlow]. *)
Definition holds_m (p : pc) : bool :=
  match p with
  | AtCheck | AtPrintln | AtAssign | AtStore | AtUnlock => true
  | _ => false
  end.

(** Inside the call of [f]. *)
Definition in_f (p : pc) : bool :=
  match p with
  | AtPrintln | AtAssign | AtStore => true
  | _ => false
  end.

(** What a goroutine at [p] knows of [singleton], [once.done] and the
    output. *)
Definition local_ok (sg : option positive) (dn : bool) (out : list string) (p : pc)
  : Prop :=
  match p with
  | AtPrintln => dn = false /\ sg = None /\ out = []
  | AtAssign => dn = false /\ sg = None /\ out = ["Initialize singleton"]
  | AtStore => dn = false /\ is_Some sg /\ out = ["Initialize singleton"]
  | AtUnlock | AtReturn => dn = true
  | Returned v => dn = true /\ v = sg
  | _ => True
  end.

(** At most one goroutine holds [once.m]. *)
Definition exclusive (gs : list pc) : Prop :=
  forall a b q r,
    gs !! a = Some q -> gs !! b = Some r ->
    holds_m q = true -> holds_m r = true -> a = b.

(** [once.m] is held exactly when a goroutine is between [Lock] and
    [Unlock]. *)
Definition locked (mx : bool) (gs : list pc) : Prop :=
  mx = true <-> exists a q, gs !! a = Some q /\ holds_m q = true.

(** Before [f] has been entered nothing is initialised. *)
Definition untouched (sg : option positive) (dn : bool) (out : list string)
  (gs : list pc) : Prop :=
  dn = false ->
  (forall a q, gs !! a = Some q -> in_f q = false) ->
  sg = None /\ out = [].

(** The invariant of every interleaving. *)
Record invariant (s : state) : Prop := {
  inv_exclusive : exclusive (goroutines s);
  inv_locked : locked (once_m s) (goroutines s);
  inv_local : forall a q,
      goroutines s !! a = Some q ->
      local_ok (singleton s) (once_done s) (stdout s) q;
  inv_done : once_done s = true ->
             is_Some (singleton s) /\ stdout s = ["Initialize singleton"];
  inv_untouched : untouched (singleton s) (once_done s) (stdout s) (goroutines s)
}.

(** The steps a goroutine at [p] still has to take, at most. *)
Definition steps_left (p : pc) : nat :=
  match p with
  | AtDo => 8 | AtLock => 7 | AtCheck => 6 | AtPrintln => 5 | AtAssign => 4
  | AtStore => 3 | AtUnlock => 2 | AtReturn => 1 | Returned _ => 0
  end.

Definition work_left (s : state) : nat := sum_list (map steps_left (goroutines s)).

(** A sink that accepts the given number of writes and rejects the rest. *)
Definition Limited : Type := nat.
#[export] Instance Limited_Writer : Writer Limited :=
  fun budget p =>
    match budget with
    | O => (O, Some (errorString "sink closed"))
    | S k => (k, None)
    end.

(** ** Functional options: [config] and [NewConfig] *)

Record config : Type := {
  addr : string;
  dburi : string;
  timeout : Z;            (* int64 *)
  logFile : string
}.

(** [%d] of [fmt.Sprintf] for an integer: its decimal digits, with a minus
    sign when negative. *)
Definition format_d (z : Z) : string := NilZero.string_of_int (Z.to_int z).

Definition config_String (c : config) : string :=
  "config {addr:" +:+ addr c +:+ ", dburi:" +:+ dburi c +:+
  ", timeout:" +:+ format_d (timeout c) +:+ ", logFile:" +:+ logFile c +:+ "}".

(** [type opt func(c *config)]: nil, or a function that updates the
    [config] it is given a pointer to. *)
Definition opt : Type := option (config -> config).

Definition SetAddr (a : string) : opt :=
  Some (fun c => {| addr := a; dburi := dburi c; timeout := timeout c;
                    logFile := logFile c |}).

Definition SetDBUri (d : string) : opt :=
  Some (fun c => {| addr := addr c; dburi := d; timeout := timeout c;
                    logFile := logFile c |}).

(** The loop [for _, opt := range opts { opt(c) }]; calling a nil function
    panics. *)
Fixpoint range_opts (opts : list opt) (c : config) : exec config :=
  match opts with
  | [] => Ret c
  | None :: _ => Panic nil_dereference
  | Some o :: opts' => range_opts opts' (o c)
  end.

(** [NewConfig]: the options applied in order to [&config{}]. *)
Definition NewConfig (opts : list opt) : exec config :=
  range_opts opts {| addr := ""; dburi := ""; timeout := 0; logFile := "" |}.

(** The calls of [SetAddr] and [SetDBUri] a caller can pass to [NewConfig]. *)
Inductive setting : Type :=
| Addr (a : string)
| DBUri (d : string).

Definition option_of (s : setting) : opt :=
  match s with
  | Addr a => SetAddr a
  | DBUri d => SetDBUri d
  end.

(** The addresses, and the database URIs, in the order they are set. *)
Definition addrs_of (ss : list setting) : list string :=
  omap (fun s => match s with Addr a => Some a | DBUri _ => None end) ss.
Definition dburis_of (ss : list setting) : list string :=
  omap (fun s => match s with DBUri d => Some d | Addr _ => None end) ss.

(** ** Counting nodes *)

(** The File and Folder nodes of a tree. *)
Fixpoint node_count (n : Node) : nat :=
  match n with
  | NilNode => O
  | FilePtr _ => 1%nat
  | FolderPtr _ Children => S (foldr (fun v k => (node_count v + k)%nat) O Children)
  end.

(** Every goroutine has returned. *)
Definition all_returned (s : state) : Prop :=
  forall i p, goroutines s !! i = Some p -> exists v, p = Returned v.

(** The first goroutine of [ids] that can take a step. *)
Fixpoint first_enabled (ids : list nat) (s : state) : option nat :=
  match ids with
  | [] => None
  | i :: ids' =>
      match getSingleton_step i s with
      | Some _ => Some i
      | None => first_enabled ids' s
      end
  end.

(** The schedule that always runs the first goroutine that can step, for
    at most [fuel] steps. *)
Fixpoint eager (fuel : nat) (s : state) : list nat :=
  match fuel with
  | O => []
  | S k =>
      match first_enabled (seq 0 (length (goroutines s))) s with
      | None => []
      | Some i =>
          match getSingleton_step i s with
          | Some s' => i :: eager k s'
          | None => []
          end
      end
  end.

(** A heap in which a folder holds the same file object twice. *)
Definition shared_heap : heap :=
  list_to_map
    [ (1%positive, FolderObj {| Name := "d" |} [Some 2; Some 2]%positive);
      (2%positive, FileObj {| Name := "f" |}) ].

(** With fuel [k], a call of [Clone] that returns leaves every object of the
    heap as it was and returns an address that was not in use. *)
Definition preserves (k : nat) : Prop :=
  forall (h : heap) (v : option loc) (x : loc) (h' : heap),
    Clone_at k h v = Some (Ret (x, h')) ->
    (x ∉ (dom h : gset positive)) /\
    (x ∈ (dom h' : gset positive)) /\
    forall l, l ∈ (dom h : gset positive) -> h' !! l = h !! l.

(** With fuel [k], a call of [Clone] on a root of the tree [n] that returns
    has allocated one object for each node of [n]. *)
Definition allocates (k : nat) (n : Node) : Prop :=
  forall (h : heap) (v : option loc) (x : loc) (h' : heap),
    repr (dom h) h v n ->
    Clone_at k h v = Some (Ret (x, h')) ->
    size h' = (size h + node_count n)%nat.

(** * Properties *)

(** ** Induction over trees *)

Lemma Node_nested_ind (P : Node -> Prop) :
  P NilNode ->
  (forall f, P (FilePtr f)) ->
  (forall f Children, Forall P Children -> P (FolderPtr f Children)) ->
  forall n, P n.
Proof.
  intros HN HF HD. fix IH 1. intros [ | f | f ch].
  - exact HN.
  - apply HF.
  - apply HD. induction ch as [ | v vs IHvs]; constructor; [apply IH | exact IHvs].
Qed.

(** ** Strings *)

Lemma append_cons a (s t : string) : String a s +:+ t = String a (s +:+ t).
Proof. reflexivity. Qed.

Lemma append_nil_l (s : string) : "" +:+ s = s.
Proof. reflexivity. Qed.

Lemma append_nil_r (s : string) : s +:+ "" = s.
Proof. induction s as [ | a s IH]; [reflexivity | rewrite append_cons, IH; reflexivity]. Qed.

Lemma append_assoc (s t u : string) : (s +:+ t) +:+ u = s +:+ (t +:+ u).
Proof.
  induction s as [ | a s IH]; [reflexivity | ].
  rewrite !append_cons, IH. reflexivity.
Qed.

Lemma text_of_app (ps qs : list string) : text_of (ps ++ qs) = text_of ps +:+ text_of qs.
Proof.
  induction ps as [ | p ps IH]; [reflexivity | ].
  unfold text_of in *. cbn [foldr app]. rewrite IH, append_assoc. reflexivity.
Qed.

(** ** Sinks *)

Section Feed.
Context {W : Type} `{HW : Writer W}.

Lemma feed_app (ps qs : list string) (w : W) :
  feed (ps ++ qs) w =
  match feed ps w with
  | (w', None) => feed qs w'
  | (w', Some e) => (w', Some e)
  end.
Proof.
  revert w. induction ps as [ | p ps IH]; intros w; cbn [feed app].
  - reflexivity.
  - destruct (Write w p) as [w' [e | ]]; [reflexivity | apply IH].
Qed.

Lemma replay_nil (r0 : exec (option error)) (w : W) : replay [] r0 w = (w, r0).
Proof. reflexivity. Qed.

Lemma replay_app (ps qs : list string) (r0 : exec (option error)) (w : W) :
  replay (ps ++ qs) r0 w =
  match feed ps w with
  | (w', None) => replay qs r0 w'
  | (w', Some e) => (w', Ret (Some e))
  end.
Proof.
  unfold replay. rewrite feed_app.
  destruct (feed ps w) as [w' [e | ]]; reflexivity.
Qed.

End Feed.

Lemma feed_Recorder (ps : list string) (r : Recorder) : feed ps r = (r ++ ps, None).
Proof.
  revert r. induction ps as [ | p ps IH]; intros r; cbn [feed].
  - rewrite app_nil_r. reflexivity.
  - unfold Write at 1, Recorder_Writer. rewrite IH, <- app_assoc. reflexivity.
Qed.

Lemma feed_Builder (ps : list string) (sb : Builder) : feed ps sb = (sb +:+ text_of ps, None).
Proof.
  revert sb. induction ps as [ | p ps IH]; intros sb; cbn [feed].
  - unfold text_of. cbn [foldr]. rewrite append_nil_r. reflexivity.
  - unfold Write at 1, Builder_Writer. rewrite IH.
    unfold text_of. cbn [foldr]. rewrite append_assoc. reflexivity.
Qed.

Lemma replay_Recorder (ps : list string) r0 (r : Recorder) : replay ps r0 r = (r ++ ps, r0).
Proof. unfold replay. rewrite feed_Recorder. reflexivity. Qed.

Lemma replay_Builder (ps : list string) r0 (sb : Builder) :
  replay ps r0 sb = (sb +:+ text_of ps, r0).
Proof. unfold replay. rewrite feed_Builder. reflexivity. Qed.

(** ** A render is its script replayed on the sink *)

Lemma File_script_eq (f : File) (opts : WriteOpts) :
  File_script f opts =
  match Repeat "    " (Level opts) with
  | Panic m => ([], Panic m)
  | Ret indent => ([indent +:+ Name f +:+ nl], Ret None)
  end.
Proof.
  unfold File_script, File_WriteEntry.
  destruct (Repeat "    " (Level opts)); reflexivity.
Qed.

Lemma File_WriteEntry_replay {W} `{Writer W} (f : File) (w : W) (opts : WriteOpts) :
  File_WriteEntry f w opts = replay (File_script f opts).1 (File_script f opts).2 w.
Proof.
  rewrite File_script_eq. unfold File_WriteEntry.
  destruct (Repeat "    " (Level opts)) as [indent | m]; cbn [fst snd].
  - unfold replay, Fprintf. cbn [feed].
    destruct (Write w (indent +:+ Name f +:+ nl)) as [w' [e | ]]; reflexivity.
  - reflexivity.
Qed.

Lemma range_WriteEntry_replay (vs : list Node) (opts : WriteOpts) :
  Forall replays vs ->
  forall W (HW : Writer W) (w : W),
    range_WriteEntry (fun v w' => WriteEntry v w' opts) vs w =
    replay (range_script vs opts).1 (range_script vs opts).2 w.
Proof.
  induction 1 as [ | v vs Hv Hvs IH]; intros W HW w.
  - reflexivity.
  - assert (Hrec : forall r : Recorder,
               range_WriteEntry (fun v w' => WriteEntry v w' opts) vs r =
               (r ++ (range_script vs opts).1, (range_script vs opts).2)).
    { intros r. rewrite IH, replay_Recorder. reflexivity. }
    unfold range_script at 1 2. cbn [range_WriteEntry].
    rewrite (Hv W HW w opts).
    fold (script v opts).
    destruct (script v opts) as [ps [[e | ] | m]]; cbn [fst snd].
    + unfold replay. destruct (feed ps w) as [w' [e' | ]]; reflexivity.
    + rewrite Hrec. cbn [fst snd]. rewrite replay_app.
      unfold replay at 1.
      destruct (feed ps w) as [w' [e' | ]]; [reflexivity | ].
      apply IH.
    + unfold replay. destruct (feed ps w) as [w' [e' | ]]; reflexivity.
Qed.

Lemma script_Folder (f : File) (Children : list Node) (opts : WriteOpts) :
  Forall replays Children ->
  script (FolderPtr f Children) opts =
  match File_script f opts with
  | (ps, Ret None) =>
      let rs := range_script Children {| Level := wrap (Level opts + 1) |} in
      (ps ++ rs.1, rs.2)
  | (ps, r0) => (ps, r0)
  end.
Proof.
  intros Hch. unfold script. cbn [WriteEntry].
  fold (File_script f opts).
  destruct (File_script f opts) as [ps [[e | ] | m]]; try reflexivity.
  rewrite (range_WriteEntry_replay _ _ Hch), replay_Recorder. reflexivity.
Qed.

Lemma WriteEntry_replay (n : Node) : replays n.
Proof.
  induction n as [ | f | f Children IH] using Node_nested_ind; intros W HW w opts.
  - reflexivity.
  - apply File_WriteEntry_replay.
  - rewrite (script_Folder _ _ _ IH). cbn [WriteEntry].
    rewrite File_WriteEntry_replay.
    destruct (File_script f opts) as [ps [[e | ] | m]]; cbn [fst snd].
    + unfold replay. destruct (feed ps w) as [w' [e' | ]]; reflexivity.
    + rewrite replay_app. unfold replay at 1.
      destruct (feed ps w) as [w' [e' | ]]; [reflexivity | ].
      apply (range_WriteEntry_replay _ _ IH).
    + unfold replay. destruct (feed ps w) as [w' [e' | ]]; reflexivity.
Qed.

(** ** The script of a tree whose levels stay within [int] *)

Lemma wrap_id (z : Z) : minInt <= z <= maxInt -> wrap z = z.
Proof.
  unfold wrap, minInt, maxInt. intros Hz.
  rewrite Z.mod_small by lia. lia.
Qed.

Lemma repeat_string_4 (n : nat) : repeat_string "    " n = repeat_string " " (4 * n).
Proof.
  induction n as [ | n IH]; [reflexivity | ].
  replace (4 * S n)%nat with (S (S (S (S (4 * n))))) by lia.
  cbn [repeat_string]. rewrite IH. reflexivity.
Qed.

Lemma Repeat_indent (d : nat) :
  4 * Z.of_nat d <= maxInt ->
  Repeat "    " (Z.of_nat d) = Ret (repeat_string " " (4 * d)).
Proof.
  intros Hd. unfold Repeat.
  destruct (Z.ltb_spec (Z.of_nat d) 0) as [Hneg | _]; [lia | ].
  change (Z.of_nat (String.length "    ")) with 4.
  destruct (Z.ltb_spec maxInt (4 * Z.of_nat d)) as [Hov | _]; [lia | ].
  rewrite Nat2Z.id, repeat_string_4. reflexivity.
Qed.

Lemma depth_Folder_cons (f : File) (v : Node) (vs : list Node) :
  depth (FolderPtr f (v :: vs)) = Nat.max (S (depth v)) (depth (FolderPtr f vs)).
Proof. reflexivity. Qed.

Lemma range_script_cons (v : Node) (vs : list Node) (opts : WriteOpts) :
  range_script (v :: vs) opts =
  match script v opts with
  | (ps, Ret None) => (ps ++ (range_script vs opts).1, (range_script vs opts).2)
  | (ps, r0) => (ps, r0)
  end.
Proof.
  unfold range_script at 1. cbn [range_WriteEntry]. fold (script v opts).
  destruct (script v opts) as [ps [[e | ] | m]]; try reflexivity.
  rewrite range_WriteEntry_replay by (apply Forall_forall; intros; apply WriteEntry_replay).
  apply replay_Recorder.
Qed.

Lemma File_script_within (f : File) (d : nat) :
  4 * Z.of_nat d <= maxInt ->
  File_script f {| Level := Z.of_nat d |} = ([entry_line (d, Name f)], Ret None).
Proof.
  intros Hd. rewrite File_script_eq. cbn [Level]. rewrite Repeat_indent by exact Hd.
  reflexivity.
Qed.

Lemma script_within (n : Node) :
  tree n = true ->
  forall d : nat,
    4 * (Z.of_nat d + Z.of_nat (depth n)) <= maxInt ->
    script n {| Level := Z.of_nat d |} = (map entry_line (entries d n), Ret None).
Proof.
  induction n as [ | f | f Children IH] using Node_nested_ind; intros Ht d Hd.
  - discriminate.
  - apply File_script_within. lia.
  - rewrite script_Folder by (apply Forall_forall; intros; apply WriteEntry_replay).
    rewrite File_script_within by lia. cbn [Level entries map].
    cbn [tree] in Ht.
    assert (Hrange : forall lvl,
               (Children <> [] -> lvl = Z.of_nat (S d)) ->
               range_script Children {| Level := lvl |} =
               (map entry_line (flat_map (entries (S d)) Children), Ret None)).
    { clear - IH Ht Hd. induction Children as [ | v vs IHvs]; intros lvl Hlvl.
      - reflexivity.
      - rewrite Hlvl by discriminate.
        rewrite depth_Folder_cons in Hd.
        cbn [forallb] in Ht. apply andb_prop in Ht as [Hv Hvs].
        inversion IH as [ | ? ? IHv IHrest]; subst.
        rewrite range_script_cons, (IHv Hv (S d)) by lia.
        rewrite (IHvs IHrest Hvs) by (intros; lia || reflexivity).
        cbn [flat_map fst snd]. rewrite map_app. reflexivity. }
    rewrite Hrange; [reflexivity | ].
    intros Hne. destruct Children as [ | v vs]; [congruence | ].
    rewrite depth_Folder_cons in Hd. rewrite wrap_id; unfold minInt, maxInt in *; lia.
Qed.

(** ** Cloning a tree *)

Lemma range_Clone_tree (vs : list Node) :
  Forall (fun v => Clone v = Ret v) vs ->
  forall pre : list Node,
    range_Clone Clone (length pre) vs (pre ++ make (length vs)) = Ret (pre ++ vs).
Proof.
  induction 1 as [ | v vs Hv _ IH]; intros pre.
  - unfold make. cbn [length replicate range_Clone]. rewrite app_nil_r. reflexivity.
  - cbn [range_Clone]. rewrite Hv.
    destruct (Nat.ltb_spec (length pre) (length (pre ++ make (length (v :: vs)))))
      as [_ | Hge].
    + unfold make. cbn [length replicate].
      rewrite insert_app_r_alt by lia. rewrite Nat.sub_diag. cbn [list_insert insert].
      specialize (IH (pre ++ [v])).
      rewrite length_app in IH. cbn [length] in IH.
      replace (length pre + 1)%nat with (S (length pre)) in IH by lia.
      rewrite <- !app_assoc in IH. exact IH.
    + rewrite length_app in Hge. unfold make in Hge.
      rewrite length_replicate in Hge. cbn [length] in Hge. lia.
Qed.

Lemma File_eta (f : File) : {| Name := Name f |} = f.
Proof. destruct f; reflexivity. Qed.

Lemma Clone_tree (n : Node) : tree n = true -> Clone n = Ret n.
Proof.
  induction n as [ | f | f Children IH] using Node_nested_ind; intros Ht.
  - discriminate.
  - cbn [Clone]. rewrite File_eta. reflexivity.
  - cbn [Clone tree] in *.
    assert (Hall : Forall (fun v => Clone v = Ret v) Children).
    { apply Forall_forall. intros v Hv.
      rewrite Forall_forall in IH. apply (IH v Hv).
      rewrite forallb_forall in Ht. apply Ht, list_elem_of_In, Hv. }
    pose proof (range_Clone_tree _ Hall []) as Hrange. cbn [app length] in Hrange.
    rewrite Hrange, File_eta. reflexivity.
Qed.

(** ** Logged sinks *)

Section LoggedSink.
Context {W : Type} `{HW : Writer W}.

Lemma feed_Logged (ps : list string) (w : W) (lg : list (string * option error)) :
  feed ps ((w, lg) : Logged W) = (((feed ps w).1, lg ++ attempts ps w), (feed ps w).2).
Proof.
  revert w lg. induction ps as [ | p ps IH]; intros w lg; cbn [feed attempts].
  - rewrite app_nil_r. reflexivity.
  - unfold Write at 1, Logged_Writer. cbn [fst snd].
    destruct (Write w p) as [w' [e | ]].
    + reflexivity.
    + rewrite IH, <- app_assoc. reflexivity.
Qed.

Lemma attempts_shape (ps : list string) (w : W) :
  match (feed ps w).2 with
  | None => attempts ps w = map (fun p => (p, None)) ps
  | Some e => exists pre p, attempts ps w = map (fun q => (q, None)) pre ++ [(p, Some e)]
  end.
Proof.
  revert w. induction ps as [ | p ps IH]; intros w; cbn [feed attempts].
  - reflexivity.
  - destruct (Write w p) as [w' [e | ]]; cbn [snd].
    + exists [], p. reflexivity.
    + specialize (IH w'). destruct (feed ps w').2 as [e | ].
      * destruct IH as (pre & q & ->). exists (p :: pre), q. reflexivity.
      * rewrite IH. reflexivity.
Qed.

End LoggedSink.

Lemma lookup_succeeded (ps : list string) (i : nat) (p : string) (e : error) :
  map (fun q : string => (q, @None error)) ps !! i = Some (p, Some e) -> False.
Proof.
  rewrite list_lookup_fmap. destruct (ps !! i); cbn; congruence.
Qed.

(** ** Trees in the heap *)

Lemma depth_child (f : File) (Children : list Node) (v : Node) :
  v ∈ Children -> (S (depth v) <= depth (FolderPtr f Children))%nat.
Proof.
  induction Children as [ | u us IH]; intros Hin.
  - inversion Hin.
  - rewrite depth_Folder_cons. apply elem_of_cons in Hin as [-> | Hin].
    + lia.
    + specialize (IH Hin). lia.
Qed.

Lemma repr_weaken (n : Node) :
  forall (A B : gset positive) (h h' : heap) (v : option loc),
    A ⊆ B ->
    (forall l, l ∈ A -> h' !! l = h !! l) ->
    repr A h v n -> repr B h' v n.
Proof.
  induction n as [ | f | f Children IH] using Node_nested_ind;
    intros A B h h' v HAB Hag Hr; inversion Hr; subst.
  - constructor.
  - constructor; [set_solver | rewrite Hag; assumption].
  - apply repr_Folder with (vs := vs); [set_solver | rewrite Hag; assumption | ].
    match goal with H : Forall2 _ vs Children |- _ => rename H into Hvs end.
    clear - IH Hvs HAB Hag.
    induction Hvs as [ | x u xs us Hx _ IHxs]; constructor.
    + inversion IH; subst. eauto.
    + inversion IH; subst. apply IHxs. assumption.
Qed.

Lemma repr_in_dom (n : Node) :
  forall (A : gset positive) (h : heap) (v : option loc),
    repr A h v n -> repr (dom h) h v n.
Proof.
  induction n as [ | f | f Children IH] using Node_nested_ind;
    intros A h v Hr; inversion Hr; subst.
  - constructor.
  - constructor; [apply elem_of_dom; eauto | assumption].
  - apply repr_Folder with (vs := vs); [apply elem_of_dom; eauto | assumption | ].
    match goal with H : Forall2 _ vs Children |- _ => rename H into Hvs end.
    clear - IH Hvs.
    induction Hvs as [ | x u xs us Hx _ IHxs]; constructor.
    + inversion IH; subst. eauto.
    + inversion IH; subst. apply IHxs. assumption.
Qed.

Lemma nodes_at_repr (n : Node) :
  forall (A : gset positive) (h : heap) (v : option loc) (fuel : nat),
    repr A h v n -> nodes_at fuel h v ⊆ A.
Proof.
  induction n as [ | f | f Children IH] using Node_nested_ind;
    intros A h v fuel Hr; inversion Hr; subst; destruct fuel as [ | k]; cbn [nodes_at];
    try set_solver.
  - match goal with H : h !! l = _ |- _ => rewrite H end. set_solver.
  - match goal with H : h !! l = _ |- _ => rewrite H end.
    match goal with H : Forall2 _ vs Children |- _ => rename H into Hvs end.
    assert (Hsub : ⋃ map (nodes_at k h) vs ⊆ A);
      [ | apply union_least; [apply singleton_subseteq_l; assumption | exact Hsub]].
    clear - IH Hvs.
    induction Hvs as [ | x u xs us Hx _ IHxs]; cbn [map union_list foldr].
    + set_solver.
    + inversion IH; subst. apply union_least; eauto.
Qed.

Lemma range_WriteEntry_at_repr {W} `{Writer W} (A : gset positive) (h : heap) (k : nat)
  (opts : WriteOpts) (vs : list (option loc)) (Children : list Node) :
  Forall2 (repr A h) vs Children ->
  Forall (fun n => forall (v : option loc) (w : W),
              repr A h v n -> WriteEntry_at k h v w opts = Some (WriteEntry n w opts))
         Children ->
  forall w : W,
    range_WriteEntry_at (WriteEntry_at k h) vs w opts =
    Some (range_WriteEntry (fun v w' => WriteEntry v w' opts) Children w).
Proof.
  induction 1 as [ | x u xs us Hx _ IHxs]; intros Hall w.
  - reflexivity.
  - inversion Hall as [ | ? ? Hu Hus]; subst.
    cbn [range_WriteEntry_at range_WriteEntry]. rewrite (Hu x w Hx).
    destruct (WriteEntry u w opts) as [w' [[e | ] | m]]; try reflexivity.
    apply IHxs, Hus.
Qed.

Lemma WriteEntry_at_repr (n : Node) :
  forall {W} `{Writer W} (A : gset positive) (h : heap) (v : option loc) (fuel : nat)
         (w : W) (opts : WriteOpts),
    repr A h v n -> (depth n < fuel)%nat ->
    WriteEntry_at fuel h v w opts = Some (WriteEntry n w opts).
Proof.
  induction n as [ | f | f Children IH] using Node_nested_ind;
    intros W HW A h v fuel w opts Hr Hfuel; inversion Hr; subst;
    (destruct fuel as [ | k]; [lia | ]); cbn [WriteEntry_at WriteEntry].
  - reflexivity.
  - match goal with H : h !! l = _ |- _ => rewrite H end. reflexivity.
  - match goal with H : h !! l = _ |- _ => rewrite H end.
    destruct (File_WriteEntry f w opts) as [w1 [[e | ] | m]]; try reflexivity.
    match goal with H : Forall2 _ vs Children |- _ => rename H into Hvs end.
    apply (range_WriteEntry_at_repr A); [exact Hvs | ].
    apply Forall_forall. intros u Hu x w' Hx.
    rewrite Forall_forall in IH. apply (IH u Hu W HW A); [exact Hx | ].
    pose proof (depth_child f Children u Hu). lia.
Qed.

(** ** Cloning in the heap *)

Lemma agree_dom (h0 h : heap) :
  (forall l, l ∈ (dom h0 : gset positive) -> h !! l = h0 !! l) ->
  (dom h0 : gset positive) ⊆ dom h.
Proof.
  intros Hag l Hl. apply elem_of_dom. rewrite (Hag l Hl). apply elem_of_dom, Hl.
Qed.

Lemma range_Clone_at_repr (k : nat) (h0 : heap) (c : loc) (fn : File)
  (vs : list (option loc)) (Children : list Node) :
  c ∉ (dom h0 : gset positive) ->
  Forall2 (repr (dom h0) h0) vs Children ->
  Forall (clones k) Children ->
  forall (h : heap) (xs : list (option loc)) (copied : list Node),
    (forall l, l ∈ (dom h0 : gset positive) -> h !! l = h0 !! l) ->
    h !! c = Some (FolderObj fn (xs ++ replicate (length vs) None)) ->
    Forall2 (repr (dom h ∖ ({[c]} ∪ dom h0)) h) xs copied ->
    exists (h' : heap) (xs' : list (option loc)),
      range_Clone_at (Clone_at k) c (length xs) vs h = Some (Ret h') /\
      (forall l, l ∈ (dom h0 : gset positive) -> h' !! l = h0 !! l) /\
      h' !! c = Some (FolderObj fn xs') /\
      Forall2 (repr (dom h' ∖ ({[c]} ∪ dom h0)) h') xs' (copied ++ Children).
Proof.
  intros Hfresh.
  induction 1 as [ | v n vs Children Hv _ IH]; intros Hall h xs copied Hag Hc Hcopied.
  - exists h, xs. cbn [range_Clone_at length replicate] in *.
    rewrite !app_nil_r in *. auto.
  - inversion Hall as [ | ? ? Hn Hrest]; subst.
    pose proof (agree_dom _ _ Hag) as Hsub.
    assert (Hvh : repr (dom h) h v n).
    { apply repr_weaken with (A := (dom h0 : gset positive)) (h := h0); assumption. }
    destruct (Hn h v Hvh) as (x & h1 & Hcl & Hag1 & Hx).
    assert (Hcdom : c ∈ (dom h : gset positive)) by (apply elem_of_dom; eauto).
    cbn [range_Clone_at]. rewrite Hcl. unfold set_child.
    rewrite (Hag1 c Hcdom), Hc.
    destruct (Nat.ltb_spec (length xs) (length (xs ++ replicate (length (v :: vs)) None)))
      as [_ | Hge];
      [ | rewrite length_app, length_replicate in Hge; cbn [length] in Hge; lia].
    rewrite insert_app_r_alt by lia. rewrite Nat.sub_diag.
    cbn [length replicate list_insert insert].
    remember (<[c := FolderObj fn (xs ++ Some x :: replicate (length vs) None)]> h1)
      as h2 eqn:Hh2.
    pose proof (agree_dom _ _ Hag1) as Hsub1.
    assert (Hdom2 : (dom h2 : gset positive) = {[c]} ∪ dom h1)
      by (rewrite Hh2; apply dom_insert_L).
    specialize (IH Hrest h2 (xs ++ [Some x]) (copied ++ [n])).
    rewrite length_app in IH. cbn [length] in IH.
    replace (length xs + 1)%nat with (S (length xs)) in IH by lia.
    destruct IH as (h' & xs' & Hrun & Hag' & Hc' & Hall').
    + intros l Hl. rewrite Hh2.
      destruct (decide (c = l)) as [-> | Hne].
      * contradiction.
      * rewrite lookup_insert_ne by exact Hne. rewrite Hag1 by set_solver. auto.
    + rewrite Hh2. rewrite lookup_insert_eq, <- app_assoc. reflexivity.
    + apply Forall2_app.
      * eapply Forall2_impl; [exact Hcopied | ].
        intros y u Hy. apply repr_weaken with (A := (dom h : gset positive) ∖ ({[c]} ∪ dom h0)) (h := h).
        -- rewrite Hdom2. set_solver.
        -- intros l Hl. rewrite Hh2. rewrite lookup_insert_ne by set_solver.
           apply Hag1. set_solver.
        -- exact Hy.
      * constructor; [ | constructor].
        apply repr_weaken with (A := (dom h1 : gset positive) ∖ dom h) (h := h1).
        -- rewrite Hdom2. set_solver.
        -- intros l Hl. rewrite Hh2. rewrite lookup_insert_ne by set_solver. reflexivity.
        -- exact Hx.
    + exists h', xs'. rewrite <- app_assoc in Hall'. auto.
Qed.

Lemma Clone_at_clones (n : Node) :
  tree n = true -> forall k : nat, (depth n < k)%nat -> clones k n.
Proof.
  induction n as [ | f | f Children IH] using Node_nested_ind;
    intros Ht k Hk h v Hr; [discriminate | | ];
    inversion Hr; subst; (destruct k as [ | k]; [lia | ]); cbn [Clone_at];
    match goal with H : h !! _ = _ |- _ => rewrite H end; unfold alloc.
  - pose proof (is_fresh (dom h : gset positive)) as Hfresh.
    set (x := fresh (dom h : gset positive)) in *.
    exists x, (<[x := FileObj {| Name := Name f |}]> h). split; [reflexivity | split].
    + intros a Ha. apply lookup_insert_ne. intros ->. contradiction.
    + rewrite File_eta. constructor.
      * rewrite dom_insert_L. set_solver.
      * apply lookup_insert_eq.
  - match goal with H : Forall2 _ vs Children |- _ => rename H into Hvs end.
    pose proof (is_fresh (dom h : gset positive)) as Hfresh.
    set (c := fresh (dom h : gset positive)) in *.
    unfold set_Name. rewrite lookup_insert_eq, insert_insert_eq.
    assert (Hall : Forall (clones k) Children).
    { apply Forall_forall. intros u Hu. rewrite Forall_forall in IH.
      apply (IH u Hu).
      - cbn [tree] in Ht. rewrite forallb_forall in Ht. apply Ht, list_elem_of_In, Hu.
      - pose proof (depth_child f Children u Hu). lia. }
    destruct (range_Clone_at_repr k h c {| Name := Name f |} vs Children Hfresh Hvs Hall
                (<[c := FolderObj {| Name := Name f |} (replicate (length vs) None)]> h)
                [] [])
      as (h' & xs' & Hrun & Hag & Hc & Hxs).
    + intros a Ha. apply lookup_insert_ne. intros ->. contradiction.
    + apply lookup_insert_eq.
    + constructor.
    + cbn [length app] in Hrun, Hxs. rewrite Hrun.
      exists c, h'. split; [reflexivity | split; [exact Hag | ]].
      rewrite <- (File_eta f). apply repr_Folder with (vs := xs').
      * apply elem_of_difference. split; [apply elem_of_dom; eauto | exact Hfresh].
      * cbn [Name]. exact Hc.
      * eapply Forall2_impl; [exact Hxs | ].
        intros y u Hy.
        apply repr_weaken with (A := (dom h' : gset positive) ∖ ({[c]} ∪ dom h)) (h := h');
          [set_solver | reflexivity | exact Hy].
Qed.

(** ** The singleton guard *)

Lemma lookup_goto (gs : list pc) (i j : nat) (p q : pc) :
  <[i := p]> gs !! j = Some q ->
  (j = i /\ q = p) \/ (j <> i /\ gs !! j = Some q).
Proof.
  intros Hq. destruct (decide (j = i)) as [-> | Hne].
  - left. split; [reflexivity | ].
    destruct (decide (i < length gs)%nat) as [Hlt | Hge].
    + rewrite list_lookup_insert_eq in Hq by exact Hlt. congruence.
    + rewrite list_insert_ge in Hq by lia.
      apply lookup_lt_Some in Hq. lia.
  - right. split; [exact Hne | ].
    rewrite list_lookup_insert_ne in Hq by congruence. exact Hq.
Qed.

Lemma lookup_goto_self (gs : list pc) (i : nat) (p p' : pc) :
  gs !! i = Some p -> <[i := p']> gs !! i = Some p'.
Proof. intros Hi. apply list_lookup_insert_eq. eapply lookup_lt_Some, Hi. Qed.

Section Mutex.
Variables (gs : list pc) (i : nat) (p p' : pc).
Hypothesis Hi : gs !! i = Some p.
Hypothesis Hex : exclusive gs.

Lemma mutex_same (mx : bool) :
  locked mx gs -> holds_m p' = holds_m p ->
  exclusive (<[i := p']> gs) /\ locked mx (<[i := p']> gs).
Proof.
  intros Hlk Hsame. split.
  - intros a b q r Ha Hb Hq Hr.
    apply lookup_goto in Ha as [[-> ->] | [Hna Ha]];
      apply lookup_goto in Hb as [[-> ->] | [Hnb Hb]].
    + reflexivity.
    + exfalso. apply Hnb. symmetry. apply (Hex i b p r); congruence.
    + exfalso. apply Hna. apply (Hex a i q p); congruence.
    + eauto.
  - unfold locked in *. rewrite Hlk. split.
    + intros (a & q & Ha & Hq). destruct (decide (a = i)) as [-> | Hne].
      * exists i, p'. split; [apply lookup_goto_self with p, Hi | congruence].
      * exists a, q. rewrite list_lookup_insert_ne by congruence. auto.
    + intros (a & q & Ha & Hq).
      apply lookup_goto in Ha as [[-> ->] | [Hna Ha]].
      * exists i, p. split; [exact Hi | congruence].
      * exists a, q. auto.
Qed.

Lemma mutex_acquire :
  locked false gs -> holds_m p' = true ->
  exclusive (<[i := p']> gs) /\ locked true (<[i := p']> gs).
Proof.
  intros Hlk Hp'. split.
  - assert (Hnone : forall a q, gs !! a = Some q -> holds_m q = true -> False).
    { intros a q Ha Hq. assert (false = true) by (apply Hlk; eauto). discriminate. }
    intros a b q r Ha Hb Hq Hr.
    apply lookup_goto in Ha as [[-> ->] | [Hna Ha]];
      apply lookup_goto in Hb as [[-> ->] | [Hnb Hb]];
      [reflexivity | exfalso; eauto .. ].
  - split; [ | reflexivity]. intros _.
    exists i, p'. split; [apply lookup_goto_self with p, Hi | exact Hp'].
Qed.

Lemma mutex_release :
  holds_m p = true -> holds_m p' = false ->
  exclusive (<[i := p']> gs) /\ locked false (<[i := p']> gs).
Proof.
  intros Hp Hp'. split.
  - intros a b q r Ha Hb Hq Hr.
    apply lookup_goto in Ha as [[-> ->] | [Hna Ha]];
      apply lookup_goto in Hb as [[-> ->] | [Hnb Hb]];
      try congruence. eauto.
  - split; [discriminate | ]. intros (a & q & Ha & Hq). exfalso.
    apply lookup_goto in Ha as [[-> ->] | [Hna Ha]]; [congruence | ].
    apply Hna. apply (Hex a i q p); assumption.
Qed.

(** A step that leaves the shared variables alone. *)
Lemma data_same sg dn out :
  (forall a q, gs !! a = Some q -> local_ok sg dn out q) ->
  untouched sg dn out gs ->
  local_ok sg dn out p' ->
  in_f p = false \/ in_f p' = true ->
  (forall a q, <[i := p']> gs !! a = Some q -> local_ok sg dn out q) /\
  untouched sg dn out (<[i := p']> gs).
Proof.
  intros Hloc Hun Hp' Hf. split.
  - intros a q Ha. apply lookup_goto in Ha as [[-> ->] | [Hna Ha]]; eauto.
  - intros Hdn Hnone. destruct Hf as [Hf | Hf].
    + apply Hun; [exact Hdn | ]. intros a q Ha.
      destruct (decide (a = i)) as [-> | Hne]; [congruence | ].
      apply (Hnone a). rewrite list_lookup_insert_ne by congruence. exact Ha.
    + rewrite (Hnone i p' (lookup_goto_self _ _ _ _ Hi)) in Hf. discriminate.
Qed.

(** A step inside [f]: no other goroutine holds [once.m], and [once.done]
    is still unset. *)
Lemma data_in_f sg out sg' dn' out' :
  (forall a q, gs !! a = Some q -> local_ok sg false out q) ->
  holds_m p = true ->
  local_ok sg' dn' out' p' ->
  dn' = true \/ in_f p' = true ->
  (forall a q, <[i := p']> gs !! a = Some q -> local_ok sg' dn' out' q) /\
  untouched sg' dn' out' (<[i := p']> gs).
Proof.
  intros Hloc Hp Hp' Hf. split.
  - intros a q Ha. apply lookup_goto in Ha as [[-> ->] | [Hna Ha]]; [exact Hp' | ].
    specialize (Hloc a q Ha).
    destruct (holds_m q) eqn:Hq.
    + exfalso. apply Hna. apply (Hex a i q p); assumption.
    + destruct q; cbn in *; try discriminate; try exact I;
        destruct Hloc; congruence.
  - intros Hdn Hnone. destruct Hf as [Hf | Hf]; [congruence | ].
    rewrite (Hnone i p' (lookup_goto_self _ _ _ _ Hi)) in Hf. discriminate.
Qed.

End Mutex.

Lemma step_invariant (i : nat) (s s' : state) :
  invariant s -> getSingleton_step i s = Some s' -> invariant s'.
Proof.
  intros [Hex Hlk Hloc Hdone Hun] Hstep. unfold getSingleton_step in Hstep.
  destruct (goroutines s !! i) as [p | ] eqn:Hi; [ | discriminate].
  pose proof (Hloc i p Hi) as Hloci.
  destruct s as [sg dn mx out nx gs]. cbn in *.
  destruct p; cbn in Hloci.
  - injection Hstep as <-.
    destruct (mutex_same gs i AtDo (if dn then AtReturn else AtLock) Hi Hex mx Hlk)
      as [Hex' Hlk']; [destruct dn; reflexivity | ].
    destruct (data_same gs i AtDo (if dn then AtReturn else AtLock) Hi sg dn out Hloc Hun)
      as [Hloc' Hun']; [destruct dn; cbn; auto | auto | ].
    constructor; cbn; assumption.
  - destruct mx; [discriminate | ]. injection Hstep as <-.
    destruct (mutex_acquire gs i AtLock AtCheck Hi Hex Hlk) as [Hex' Hlk']; [reflexivity | ].
    destruct (data_same gs i AtLock AtCheck Hi sg dn out Hloc Hun)
      as [Hloc' Hun']; [exact I | auto | ].
    constructor; cbn; assumption.
  - injection Hstep as <-.
    destruct (mutex_same gs i AtCheck (if dn then AtUnlock else AtPrintln) Hi Hex mx Hlk)
      as [Hex' Hlk']; [destruct dn; reflexivity | ].
    destruct (data_same gs i AtCheck (if dn then AtUnlock else AtPrintln) Hi sg dn out
                Hloc Hun) as [Hloc' Hun'].
    + destruct dn; cbn; [reflexivity | ].
      split; [reflexivity | ]. apply Hun; [reflexivity | ].
      intros a q Ha. destruct (in_f q) eqn:Hq; [ | reflexivity].
      assert (a = i) as -> by (apply (Hex a i q AtCheck); destruct q; auto; discriminate).
      rewrite Hi in Ha. injection Ha as <-. discriminate.
    + destruct dn; cbn; auto.
    + constructor; cbn; assumption.
  - injection Hstep as <-. destruct Hloci as (-> & -> & ->).
    destruct (mutex_same gs i AtPrintln AtAssign Hi Hex mx Hlk) as [Hex' Hlk'];
      [reflexivity | ].
    destruct (data_in_f gs i AtPrintln AtAssign Hi Hex None [] None false
                ([] ++ ["Initialize singleton"]) Hloc)
      as [Hloc' Hun']; [reflexivity | cbn; auto | auto | ].
    constructor; cbn; try assumption. discriminate.
  - injection Hstep as <-. destruct Hloci as (-> & -> & ->).
    destruct (mutex_same gs i AtAssign AtStore Hi Hex mx Hlk) as [Hex' Hlk'];
      [reflexivity | ].
    destruct (data_in_f gs i AtAssign AtStore Hi Hex None ["Initialize singleton"]
                (Some nx) false ["Initialize singleton"] Hloc)
      as [Hloc' Hun']; [reflexivity | cbn; eauto | auto | ].
    constructor; cbn; try assumption. discriminate.
  - injection Hstep as <-. destruct Hloci as (-> & Hsg & ->).
    destruct (mutex_same gs i AtStore AtUnlock Hi Hex mx Hlk) as [Hex' Hlk'];
      [reflexivity | ].
    destruct (data_in_f gs i AtStore AtUnlock Hi Hex sg ["Initialize singleton"]
                sg true ["Initialize singleton"] Hloc)
      as [Hloc' Hun']; [reflexivity | cbn; eauto | auto | ].
    constructor; cbn; try assumption. auto.
  - injection Hstep as <-.
    destruct (mutex_release gs i AtUnlock AtReturn Hi Hex) as [Hex' Hlk'];
      [reflexivity | reflexivity | ].
    destruct (data_same gs i AtUnlock AtReturn Hi sg dn out Hloc Hun)
      as [Hloc' Hun']; [exact Hloci | auto | ].
    constructor; cbn; assumption.
  - injection Hstep as <-.
    destruct (mutex_same gs i AtReturn (Returned sg) Hi Hex mx Hlk) as [Hex' Hlk'];
      [reflexivity | ].
    destruct (data_same gs i AtReturn (Returned sg) Hi sg dn out Hloc Hun)
      as [Hloc' Hun']; [cbn; auto | auto | ].
    constructor; cbn; assumption.
  - discriminate.
Qed.

Lemma initial_invariant (N : nat) : invariant (initial N).
Proof.
  constructor; cbn.
  - intros a b q r Ha _ Hq _. apply lookup_replicate in Ha as [-> _]. discriminate.
  - split; [discriminate | ]. intros (a & q & Ha & Hq).
    apply lookup_replicate in Ha as [-> _]. discriminate.
  - intros a q Ha. apply lookup_replicate in Ha as [-> _]. exact I.
  - discriminate.
  - intros _ _. auto.
Qed.

Lemma run_invariant (sched : list nat) :
  forall s s' : state, invariant s -> run sched s = Some s' -> invariant s'.
Proof.
  induction sched as [ | i sched IH]; intros s s' Hinv Hrun; cbn [run] in Hrun.
  - congruence.
  - destruct (getSingleton_step i s) as [s1 | ] eqn:Hstep; [ | discriminate].
    apply (IH s1 s'); [eapply step_invariant; eassumption | exact Hrun].
Qed.

Lemma sum_steps_left_insert (gs : list pc) (i : nat) (p p' : pc) :
  gs !! i = Some p ->
  (steps_left p' < steps_left p)%nat ->
  (sum_list (map steps_left (<[i := p']> gs)) < sum_list (map steps_left gs))%nat.
Proof.
  revert i. induction gs as [ | q gs IH]; intros [ | i] Hi Hlt; cbn in Hi |- *;
    try discriminate.
  - injection Hi as ->. apply Nat.add_lt_mono_r, Hlt.
  - apply Nat.add_lt_mono_l, (IH i Hi Hlt).
Qed.

Lemma step_work_left (i : nat) (s s' : state) :
  getSingleton_step i s = Some s' ->
  (work_left s' < work_left s)%nat /\
  length (goroutines s') = length (goroutines s).
Proof.
  unfold getSingleton_step, work_left. intros Hstep.
  destruct (goroutines s !! i) as [p | ] eqn:Hi; [ | discriminate].
  destruct p; try destruct (once_m s); try destruct (once_done s);
    try discriminate; injection Hstep as <-; cbn [goroutines goto];
    (split; [eapply sum_steps_left_insert; [exact Hi | cbn; lia] | apply length_insert]).
Qed.

Lemma run_work_left (sched : list nat) :
  forall s s' : state,
    run sched s = Some s' ->
    (length sched + work_left s' <= work_left s)%nat /\
    length (goroutines s') = length (goroutines s).
Proof.
  induction sched as [ | i sched IH]; intros s s' Hrun; cbn [run length] in *.
  - injection Hrun as ->. split; [lia | reflexivity].
  - destruct (getSingleton_step i s) as [s1 | ] eqn:Hstep; [ | discriminate].
    destruct (step_work_left _ _ _ Hstep) as [Hlt Hlen].
    destruct (IH _ _ Hrun) as [Hle Hlen']. split; [lia | congruence].
Qed.

Lemma work_left_initial (N : nat) : work_left (initial N) = (8 * N)%nat.
Proof.
  unfold work_left, initial. cbn [goroutines].
  induction N as [ | N IH]; [reflexivity | ].
  cbn [replicate map sum_list sum_list_with steps_left id] in *. lia.
Qed.

(** No interleaving gets stuck before every goroutine has returned. *)
Lemma stuck_returned (s : state) :
  invariant s ->
  (forall i, getSingleton_step i s = None) ->
  forall i p, goroutines s !! i = Some p -> exists v, p = Returned v.
Proof.
  intros Hinv Hstuck i p Hi.
  assert (Hfree : forall a q, goroutines s !! a = Some q -> holds_m q = false).
  { intros a q Ha. specialize (Hstuck a). unfold getSingleton_step in Hstuck. rewrite Ha in Hstuck.
    destruct q; try discriminate; reflexivity. }
  pose proof (Hstuck i) as Hstep. unfold getSingleton_step in Hstep. rewrite Hi in Hstep.
  destruct p; try discriminate; [ | eauto].
  destruct (once_m s) eqn:Hm; [ | discriminate].
  apply (inv_locked s Hinv) in Hm as (a & q & Ha & Hq).
  rewrite (Hfree a q Ha) in Hq. discriminate.
Qed.

(** The initializer's line is printed at most once. *)
Lemma invariant_stdout (s : state) :
  invariant s -> stdout s = [] \/ stdout s = ["Initialize singleton"].
Proof.
  intros Hinv. destruct (once_done s) eqn:Hdn.
  - right. apply (inv_done s Hinv Hdn).
  - destruct (decide (Exists (fun q => in_f q = true) (goroutines s))) as [Hin | Hout].
    + apply Exists_exists in Hin as (q & Hq & Hf).
      apply list_elem_of_lookup in Hq as [a Ha].
      pose proof (inv_local s Hinv a q Ha) as Hloc.
      destruct q; try discriminate; cbn in Hloc; intuition.
    + left. apply (inv_untouched s Hinv Hdn).
      intros a q Ha. destruct (in_f q) eqn:Hf; [ | reflexivity].
      exfalso. apply Hout, Exists_exists. exists q. split; [ | exact Hf].
      apply list_elem_of_lookup. eauto.
Qed.

Lemma returned_initialised (s : state) (i : nat) (v : option positive) :
  invariant s ->
  goroutines s !! i = Some (Returned v) ->
  stdout s = ["Initialize singleton"] /\
  exists a, v = Some a /\ singleton s = Some a.
Proof.
  intros Hinv Hi. destruct (inv_local s Hinv i _ Hi) as [Hdn ->].
  destruct (inv_done s Hinv Hdn) as [[a Ha] Hout].
  split; [exact Hout | eauto].
Qed.

(** * The claims *)

(** ** Prototype *)

Lemma repr_main_heap : repr (dom main_heap) main_heap (Some 1%positive) main_folder.
Proof.
  assert (Hin : forall l o, main_heap !! l = Some o -> l ∈ (dom main_heap : gset positive))
    by (intros l o Hl; apply elem_of_dom; eauto).
  unfold main_folder.
  eapply repr_Folder; [eapply Hin | | ]; [reflexivity | reflexivity | ].
  repeat constructor; try (eapply Hin; reflexivity).
  eapply repr_Folder; [eapply Hin | | ]; [reflexivity | reflexivity | ].
  repeat constructor; eapply Hin; reflexivity.
Qed.

(** C1: for every tree [T] built from File and Folder nodes, [Clone(T)]
    returns, and what it returns renders as [T] does: on every sink, from
    every sink state and at every level, [WriteEntry] of the clone gives the
    result [WriteEntry] of [T] gives.  The same holds of the objects in the
    heap: the copy [Clone] allocates renders as the original does. *)
Theorem Clone_renders_alike (T : Node) :
  tree T = true ->
  (exists c : Node,
      Clone T = Ret c /\
      forall (W : Type) (HW : Writer W) (w : W) (opts : WriteOpts),
        WriteEntry c w opts = WriteEntry T w opts) /\
  (forall (h : heap) (v : option loc) (fuel : nat),
      repr (dom h) h v T -> (depth T < fuel)%nat ->
      exists (x : loc) (h' : heap),
        Clone_at fuel h v = Some (Ret (x, h')) /\
        forall (W : Type) (HW : Writer W) (w : W) (opts : WriteOpts),
          WriteEntry_at fuel h' (Some x) w opts = WriteEntry_at fuel h v w opts /\
          WriteEntry_at fuel h' v w opts = WriteEntry_at fuel h v w opts).
Proof.
  intros Ht. split.
  - exists T. split; [apply Clone_tree, Ht | reflexivity].
  - intros h v fuel Hr Hfuel.
    destruct (Clone_at_clones T Ht fuel Hfuel h v Hr) as (x & h' & Hcl & Hag & Hx).
    exists x, h'. split; [exact Hcl | ]. intros W HW w opts.
    rewrite (WriteEntry_at_repr T _ _ _ _ w opts Hx Hfuel).
    rewrite (WriteEntry_at_repr T _ _ _ _ w opts Hr Hfuel).
    split; [reflexivity | ].
    apply (WriteEntry_at_repr T (dom h)); [ | exact Hfuel].
    apply repr_weaken with (A := (dom h : gset positive)) (h := h);
      [reflexivity | exact Hag | exact Hr].
Qed.

Lemma Clone_renders_alike_witness :
  (exists c : Node,
      Clone main_folder = Ret c /\
      forall (W : Type) (HW : Writer W) (w : W) (opts : WriteOpts),
        WriteEntry c w opts = WriteEntry main_folder w opts) /\
  exists (x : loc) (h' : heap),
    Clone_at 3 main_heap (Some 1%positive) = Some (Ret (x, h')) /\
    forall (W : Type) (HW : Writer W) (w : W) (opts : WriteOpts),
      WriteEntry_at 3 h' (Some x) w opts = WriteEntry_at 3 main_heap (Some 1%positive) w opts /\
      WriteEntry_at 3 h' (Some 1%positive) w opts =
      WriteEntry_at 3 main_heap (Some 1%positive) w opts.
Proof.
  destruct (Clone_renders_alike main_folder) as [Hpure Hheap]; [reflexivity | ].
  split; [exact Hpure | ].
  apply (Hheap main_heap (Some 1%positive) 3%nat); [exact repr_main_heap | cbn; lia].
Defined.

(** C3: for every tree [T], [Clone] returns a copy with the same names and
    the same children in the same order at every depth (it represents the
    same [T]), made only of objects that did not exist before: no node object
    is shared with the original, which is left as it was.  Whatever object is
    overwritten afterwards, at most one of the two trees is touched: a
    mutation of an object that existed before the call (every node of the
    original is one) leaves the render of the clone unchanged, and a mutation
    of any other object (every node of the clone is one) leaves the render of
    the original unchanged. *)
Theorem Clone_independent (T : Node) (h : heap) (v : option loc) (fuel : nat) :
  tree T = true ->
  repr (dom h) h v T ->
  (depth T < fuel)%nat ->
  Clone T = Ret T /\
  exists (x : loc) (h' : heap),
    Clone_at fuel h v = Some (Ret (x, h')) /\
    repr (dom h' ∖ dom h) h' (Some x) T /\
    repr (dom h) h' v T /\
    nodes_at fuel h' v ⊆ dom h /\
    nodes_at fuel h' (Some x) ⊆ dom h' ∖ dom h /\
    nodes_at fuel h' (Some x) ## nodes_at fuel h' v /\
    forall (a : loc) (o : object) (W : Type) (HW : Writer W) (w : W) (opts : WriteOpts),
      (a ∈ (dom h : gset positive) ->
       WriteEntry_at fuel (<[a := o]> h') (Some x) w opts =
       WriteEntry_at fuel h' (Some x) w opts) /\
      (a ∉ (dom h : gset positive) ->
       WriteEntry_at fuel (<[a := o]> h') v w opts =
       WriteEntry_at fuel h' v w opts).
Proof.
  intros Ht Hr Hfuel. split; [apply Clone_tree, Ht | ].
  destruct (Clone_at_clones T Ht fuel Hfuel h v Hr) as (x & h' & Hcl & Hag & Hx).
  assert (Hv : repr (dom h) h' v T).
  { apply repr_weaken with (A := (dom h : gset positive)) (h := h);
      [reflexivity | exact Hag | exact Hr]. }
  pose proof (nodes_at_repr T _ _ _ fuel Hv) as Hnv.
  pose proof (nodes_at_repr T _ _ _ fuel Hx) as Hnx.
  exists x, h'. repeat split; try assumption.
  - intros a Hax Hav. apply Hnx in Hax. apply Hnv in Hav.
    apply elem_of_difference in Hax as [_ Hax]. contradiction.
  - intros Ha.
    rewrite (WriteEntry_at_repr T _ _ _ _ w opts Hx Hfuel).
    apply (WriteEntry_at_repr T ((dom h' : gset positive) ∖ dom h)); [ | exact Hfuel].
    apply repr_weaken with (A := (dom h' : gset positive) ∖ dom h) (h := h');
      [reflexivity | | exact Hx].
    intros l Hl. apply lookup_insert_ne. intros ->.
    apply elem_of_difference in Hl as [_ Hl]. contradiction.
  - intros Ha.
    rewrite (WriteEntry_at_repr T _ _ _ _ w opts Hv Hfuel).
    apply (WriteEntry_at_repr T (dom h)); [ | exact Hfuel].
    apply repr_weaken with (A := (dom h : gset positive)) (h := h');
      [reflexivity | | exact Hv].
    intros l Hl. apply lookup_insert_ne. intros ->. contradiction.
Qed.

Lemma Clone_independent_witness :
  Clone main_folder = Ret main_folder /\
  exists (x : loc) (h' : heap),
    Clone_at 3 main_heap (Some 1%positive) = Some (Ret (x, h')) /\
    repr (dom h' ∖ dom main_heap) h' (Some x) main_folder /\
    repr (dom main_heap) h' (Some 1%positive) main_folder /\
    nodes_at 3 h' (Some 1%positive) ⊆ dom main_heap /\
    nodes_at 3 h' (Some x) ⊆ dom h' ∖ dom main_heap /\
    nodes_at 3 h' (Some x) ## nodes_at 3 h' (Some 1%positive) /\
    forall (a : loc) (o : object) (W : Type) (HW : Writer W) (w : W) (opts : WriteOpts),
      (a ∈ (dom main_heap : gset positive) ->
       WriteEntry_at 3 (<[a := o]> h') (Some x) w opts =
       WriteEntry_at 3 h' (Some x) w opts) /\
      (a ∉ (dom main_heap : gset positive) ->
       WriteEntry_at 3 (<[a := o]> h') (Some 1%positive) w opts =
       WriteEntry_at 3 h' (Some 1%positive) w opts).
Proof.
  apply (Clone_independent main_folder main_heap (Some 1%positive) 3%nat);
    [reflexivity | exact repr_main_heap | cbn; lia].
Defined.

(** C8: cloning a Folder whose slice of children is empty returns (no panic)
    a Folder with the same name and an empty slice of children; in the heap
    it is a new object. *)
Theorem Clone_empty_Folder (f : File) :
  Clone (FolderPtr f []) = Ret (FolderPtr {| Name := Name f |} []) /\
  forall (h : heap) (l : loc) (fuel : nat),
    h !! l = Some (FolderObj f []) ->
    exists c : loc,
      (c ∉ (dom h : gset positive)) /\
      Clone_at (S fuel) h (Some l) =
      Some (Ret (c, <[c := FolderObj {| Name := Name f |} []]> h)).
Proof.
  split; [reflexivity | ].
  intros h l fuel Hl. exists (fresh (dom h : gset positive)).
  split; [apply is_fresh | ].
  cbn [Clone_at]. rewrite Hl. unfold alloc. cbn [length replicate].
  unfold set_Name. rewrite lookup_insert_eq, insert_insert_eq. reflexivity.
Qed.

(** *** Sinks that cannot fail *)

Section Infallible.
Context {W : Type} `{HW : Writer W}.
Hypothesis Hnofail : forall (w : W) (p : string), (Write w p).2 = None.

Lemma File_WriteEntry_infallible (f : File) (w : W) (opts : WriteOpts) (e : error) :
  (File_WriteEntry f w opts).2 <> Ret (Some e).
Proof.
  unfold File_WriteEntry, Fprintf.
  destruct (Repeat "    " (Level opts)) as [indent | m]; [ | discriminate].
  pose proof (Hnofail w (indent +:+ Name f +:+ nl)) as Hw.
  destruct (Write w (indent +:+ Name f +:+ nl)) as [w' err]. cbn in *. congruence.
Qed.

Lemma WriteEntry_infallible (n : Node) :
  forall (w : W) (opts : WriteOpts) (e : error),
    (WriteEntry n w opts).2 <> Ret (Some e).
Proof.
  induction n as [ | f | f Children IH] using Node_nested_ind; intros w opts e.
  - discriminate.
  - apply File_WriteEntry_infallible.
  - cbn [WriteEntry].
    pose proof (File_WriteEntry_infallible f w opts) as Hf.
    destruct (File_WriteEntry f w opts) as [w1 [[e1 | ] | m]]; cbn in *;
      [congruence | | discriminate].
    clear Hf. generalize (wrap (Level opts + 1)). intros lvl. revert w1.
    induction IH as [ | v vs Hv _ IHvs]; intros w1; cbn [range_WriteEntry].
    + discriminate.
    + specialize (Hv w1 {| Level := lvl |}).
      destruct (WriteEntry v w1 {| Level := lvl |}) as [w2 [[e2 | ] | m]]; cbn in *;
        [congruence | apply IHvs | discriminate].
Qed.

End Infallible.

Lemma script_no_error (n : Node) (opts : WriteOpts) (e : error) :
  (script n opts).2 <> Ret (Some e).
Proof. apply (WriteEntry_infallible (W := Recorder)). reflexivity. Qed.

Lemma WriteEntry_Builder_within (n : Node) (d : nat) (sb : Builder) :
  tree n = true ->
  4 * (Z.of_nat d + Z.of_nat (depth n)) <= maxInt ->
  WriteEntry n sb {| Level := Z.of_nat d |} =
  (sb +:+ text_of (map entry_line (entries d n)), Ret None).
Proof.
  intros Ht Hd. rewrite WriteEntry_replay, (script_within n Ht d Hd).
  apply replay_Builder.
Qed.

Lemma text_of_map_flat_map {A B} (g : B -> string) (k : A -> list B) (l : list A) :
  text_of (map g (flat_map k l)) = text_of (map (fun x => text_of (map g (k x))) l).
Proof.
  induction l as [ | x l IH]; [reflexivity | ].
  cbn [flat_map map]. rewrite map_app, text_of_app, IH. reflexivity.
Qed.

(** C4: a Folder rendered from level 0 writes its own line first and then
    the render of each child at level 0 + 1, in the order of the slice; and
    the whole text is, node after node in that order, the line of each node:
    [4 * d] spaces for a node at nesting depth [d], its name, a line feed,
    folders nested in folders included.  (The tree is built from File and
    Folder nodes and its levels fit in an [int].) *)
Theorem Folder_WriteEntry_layout (f : File) (Children : list Node) :
  tree (FolderPtr f Children) = true ->
  within_int 0 (FolderPtr f Children) ->
  WriteEntry (FolderPtr f Children) ("" : Builder) {| Level := 0 |} =
  ((Name f +:+ nl) +:+
   text_of (map (fun v => (WriteEntry v ("" : Builder) {| Level := 0 + 1 |}).1) Children),
   Ret None) /\
  (WriteEntry (FolderPtr f Children) ("" : Builder) {| Level := 0 |}).1 =
  text_of (map entry_line (entries 0 (FolderPtr f Children))) /\
  forall (d : nat) (name : string),
    entry_line (d, name) = repeat_string " " (4 * d) +:+ name +:+ nl.
Proof.
  intros Ht [_ Hd].
  pose proof (WriteEntry_Builder_within (FolderPtr f Children) 0 "" Ht Hd) as Hall.
  change (Z.of_nat 0) with 0 in Hall. rewrite append_nil_l in Hall.
  split; [ | split; [rewrite Hall; reflexivity | reflexivity]].
  rewrite Hall. f_equal. cbn [entries map].
  change (text_of (entry_line (O, Name f) :: ?l)) with (entry_line (O, Name f) +:+ text_of l).
  f_equal. rewrite text_of_map_flat_map. f_equal.
  apply map_ext_in. intros v Hv.
  change {| Level := 0 + 1 |} with {| Level := Z.of_nat 1 |}.
  rewrite (WriteEntry_Builder_within v 1 "").
  - reflexivity.
  - cbn [tree] in Ht. rewrite forallb_forall in Ht. apply Ht, Hv.
  - pose proof (depth_child f Children v (proj2 (list_elem_of_In _ _) Hv)). lia.
Qed.

Lemma Folder_WriteEntry_layout_witness :
  WriteEntry main_folder ("" : Builder) {| Level := 0 |} =
  (("root" +:+ nl) +:+
   text_of [ "    file1" +:+ nl; "    file2" +:+ nl;
             "    subfolder" +:+ nl +:+ "        file3" +:+ nl +:+ "        file4" +:+ nl ],
   Ret None) /\
  (WriteEntry main_folder ("" : Builder) {| Level := 0 |}).1 =
  text_of (map entry_line
             [ (0, "root"); (1, "file1"); (1, "file2"); (1, "subfolder");
               (2, "file3"); (2, "file4") ]%nat).
Proof.
  destruct (Folder_WriteEntry_layout {| Name := "root" |}
              [ FilePtr {| Name := "file1" |};
                FilePtr {| Name := "file2" |};
                FolderPtr {| Name := "subfolder" |}
                  [ FilePtr {| Name := "file3" |}; FilePtr {| Name := "file4" |} ] ])
    as (Hfirst & Hlines & _).
  - reflexivity.
  - split; [lia | vm_compute; discriminate].
  - split; [exact Hfirst | exact Hlines].
Defined.

(** C5: whatever the sink, as soon as a write fails the traversal stops and
    that error is what [WriteEntry] returns.  The log of the writes made on
    the sink shows it: a failed write is the last write of the log and its
    error is the result; a non-nil error result is the error of the last
    write; and a nil result means every payload of the whole render was
    written, each with success.  (Logging does not change the run.) *)
Theorem WriteEntry_stops_at_failure {W : Type} `{HW : Writer W}
  (T : Node) (w : W) (opts : WriteOpts) :
  let '(wl, r) := WriteEntry T ((w, []) : Logged W) opts in
  WriteEntry T w opts = (wl.1, r) /\
  (forall (i : nat) (p : string) (e : error),
      wl.2 !! i = Some (p, Some e) -> S i = length wl.2 /\ r = Ret (Some e)) /\
  (forall e : error, r = Ret (Some e) -> exists p, last wl.2 = Some (p, Some e)) /\
  (r = Ret None ->
   wl.2 = map (fun p => (p, None)) (script T opts).1 /\ (script T opts).2 = Ret None).
Proof.
  rewrite (WriteEntry_replay T (Logged W)), (WriteEntry_replay T W).
  pose proof (script_no_error T opts) as Hnoerr.
  destruct (script T opts) as [ps r0]. cbn [fst snd] in *.
  unfold replay. rewrite feed_Logged. cbn [app].
  pose proof (attempts_shape ps w) as Hshape.
  destruct (feed ps w) as [w' [e0 | ]]; cbn [fst snd] in *.
  - destruct Hshape as (pre & p0 & ->).
    split; [reflexivity | split; [ | split]].
    + intros i p e Hlog.
      destruct (decide (i < length pre)%nat) as [Hlt | Hge].
      * rewrite lookup_app_l in Hlog by (rewrite length_map; exact Hlt).
        exfalso. eapply lookup_succeeded, Hlog.
      * rewrite lookup_app_r in Hlog by (rewrite length_map; lia).
        rewrite length_map in Hlog. rewrite length_app, length_map. cbn [length].
        destruct (i - length pre)%nat as [ | k] eqn:Hk; [ | destruct k; discriminate].
        cbn in Hlog. split; [lia | congruence].
    + intros e He. injection He as <-. exists p0. apply last_snoc.
    + discriminate.
  - rewrite Hshape. split; [reflexivity | split; [ | split]].
    + intros i p e Hlog. exfalso. eapply lookup_succeeded, Hlog.
    + intros e He. exfalso. apply (Hnoerr e He).
    + intros Hr0. split; [reflexivity | exact Hr0].
Qed.

Lemma WriteEntry_stops_at_failure_witness :
  WriteEntry main_folder ((2%nat : Limited, []) : Logged Limited) {| Level := 0 |} =
  ((O, [ ("root" +:+ nl, None);
         ("    file1" +:+ nl, None);
         ("    file2" +:+ nl, Some (errorString "sink closed")) ]),
   Ret (Some (errorString "sink closed"))) /\
  WriteEntry main_folder (2%nat : Limited) {| Level := 0 |} =
  (O, Ret (Some (errorString "sink closed"))).
Proof.
  pose proof (WriteEntry_stops_at_failure main_folder (2%nat : Limited) {| Level := 0 |})
    as Hstop.
  change (WriteEntry main_folder ((2%nat : Limited, []) : Logged Limited) {| Level := 0 |})
    with ((O, [ ("root" +:+ nl, @None error);
                ("    file1" +:+ nl, None);
                ("    file2" +:+ nl, Some (errorString "sink closed")) ]),
          Ret (Some (errorString "sink closed"))) in Hstop.
  cbn [fst snd] in Hstop. destruct Hstop as (Hrun & _).
  split; [reflexivity | exact Hrun].
Defined.

(** C6 as stated does not hold: the text written for the leaf "file1" at
    level 0 is not the five bytes "file1". *)
Lemma File_file1_not_bare :
  (WriteEntry (FilePtr {| Name := "file1" |}) ("" : Builder) {| Level := 0 |}).1 <> "file1".
Proof. vm_compute. discriminate. Qed.

(** C6, amended: rendering a leaf File named "file1" at level 0 produces
    exactly the text "file1" followed by one line feed, with no leading
    indentation; on any sink it is one write of that text. *)
Theorem File_file1_line :
  WriteEntry (FilePtr {| Name := "file1" |}) ("" : Builder) {| Level := 0 |} =
  ("file1" +:+ nl, Ret None) /\
  script (FilePtr {| Name := "file1" |}) {| Level := 0 |} = (["file1" +:+ nl], Ret None).
Proof. split; reflexivity. Qed.

(** C9: the render is a function of the tree and the level alone.  On any
    sink, [WriteEntry] is the replay of one script fixed by the tree and the
    level; into a [strings.Builder] it appends the same bytes whatever the
    builder held before, the renders of other trees included; and in the
    heap, two roots of the same tree render alike, whatever else the heaps
    hold. *)
Theorem WriteEntry_deterministic (T : Node) (opts : WriteOpts) :
  (forall (W : Type) (HW : Writer W) (w : W),
      WriteEntry T w opts = replay (script T opts).1 (script T opts).2 w) /\
  (forall sb : Builder,
      WriteEntry T sb opts =
      (sb +:+ (WriteEntry T ("" : Builder) opts).1, (WriteEntry T ("" : Builder) opts).2)) /\
  (forall (U : Node) (optsU : WriteOpts) (sb : Builder),
      let sb' := (WriteEntry U sb optsU).1 in
      WriteEntry T sb' opts =
      (sb' +:+ (WriteEntry T ("" : Builder) opts).1, (WriteEntry T ("" : Builder) opts).2)) /\
  (forall (W : Type) (HW : Writer W) (w : W) (A1 A2 : gset positive) (h1 h2 : heap)
          (v1 v2 : option loc) (fuel1 fuel2 : nat),
      repr A1 h1 v1 T -> repr A2 h2 v2 T ->
      (depth T < fuel1)%nat -> (depth T < fuel2)%nat ->
      WriteEntry_at fuel1 h1 v1 w opts = WriteEntry_at fuel2 h2 v2 w opts).
Proof.
  assert (Hsb : forall sb : Builder,
             WriteEntry T sb opts =
             (sb +:+ (WriteEntry T ("" : Builder) opts).1,
              (WriteEntry T ("" : Builder) opts).2)).
  { intros sb. rewrite !(WriteEntry_replay T Builder), !replay_Builder.
    cbn [fst snd]. rewrite append_nil_l. reflexivity. }
  split; [intros W HW w; apply WriteEntry_replay | ].
  split; [exact Hsb | ].
  split; [intros U optsU sb sb'; apply Hsb | ].
  intros W HW w A1 A2 h1 h2 v1 v2 fuel1 fuel2 Hr1 Hr2 Hf1 Hf2.
  rewrite (WriteEntry_at_repr T _ _ _ _ w opts Hr1 Hf1).
  rewrite (WriteEntry_at_repr T _ _ _ _ w opts Hr2 Hf2). reflexivity.
Qed.

(** C10: for every Folder [f] (a tree whose levels fit in an [int]),
    [f.String()] returns the whole render of [f] from level 0: node after
    node, the indent and name of the node and then a line feed, so that every
    line, the last one included, ends in a line feed.  The error result of
    [WriteEntry] is dropped by [String], and nothing is lost by it: into a
    [strings.Builder] no [WriteEntry] ever returns a non-nil error. *)
Theorem Folder_String_lines (f : File) (Children : list Node) :
  tree (FolderPtr f Children) = true ->
  within_int 0 (FolderPtr f Children) ->
  Folder_String f Children =
  Ret (text_of (map (fun e => (repeat_string " " (4 * e.1) +:+ e.2) +:+ nl)
                  (entries 0 (FolderPtr f Children)))) /\
  WriteEntry (FolderPtr f Children) ("" : Builder) {| Level := 0 |} =
  (text_of (map (fun e => (repeat_string " " (4 * e.1) +:+ e.2) +:+ nl)
              (entries 0 (FolderPtr f Children))), Ret None) /\
  forall (T : Node) (sb : Builder) (opts : WriteOpts) (e : error),
    (WriteEntry T sb opts).2 <> Ret (Some e).
Proof.
  intros Ht [_ Hd].
  pose proof (WriteEntry_Builder_within (FolderPtr f Children) 0 "" Ht Hd) as Hall.
  change (Z.of_nat 0) with 0 in Hall. rewrite append_nil_l in Hall.
  assert (Hlines : map entry_line (entries 0 (FolderPtr f Children)) =
                   map (fun e => (repeat_string " " (4 * e.1) +:+ e.2) +:+ nl)
                     (entries 0 (FolderPtr f Children))).
  { apply map_ext. intros [d name]. unfold entry_line. cbn [fst snd].
    symmetry. apply append_assoc. }
  rewrite Hlines in Hall.
  split; [unfold Folder_String; rewrite Hall; reflexivity | ].
  split; [exact Hall | ].
  intros T sb opts e. apply (WriteEntry_infallible (W := Builder)). reflexivity.
Qed.

Lemma Folder_String_lines_witness :
  Folder_String {| Name := "root" |}
    [ FilePtr {| Name := "file1" |};
      FilePtr {| Name := "file2" |};
      FolderPtr {| Name := "subfolder" |}
        [ FilePtr {| Name := "file3" |}; FilePtr {| Name := "file4" |} ] ] =
  Ret (text_of [ "root" +:+ nl; "    file1" +:+ nl; "    file2" +:+ nl;
                 "    subfolder" +:+ nl; "        file3" +:+ nl; "        file4" +:+ nl ]).
Proof.
  destruct (Folder_String_lines {| Name := "root" |}
              [ FilePtr {| Name := "file1" |};
                FilePtr {| Name := "file2" |};
                FolderPtr {| Name := "subfolder" |}
                  [ FilePtr {| Name := "file3" |}; FilePtr {| Name := "file4" |} ] ])
    as (Hstring & _).
  - reflexivity.
  - split; [lia | vm_compute; discriminate].
  - exact Hstring.
Defined.

(** ** Abstract factory *)

(** C7: for "google" and for "yandex" [AuthFactory] returns the provider of
    that name (whose customers and sellers carry it); for every other string
    it panics with the message "unknown provider" and the string, and so
    returns no provider at all. *)
Theorem AuthFactory_unknown_panics (provider : string) :
  provider <> "google" -> provider <> "yandex" ->
  AuthFactory provider = Panic ("unknown provider " +:+ provider) /\
  (forall p : Provider, AuthFactory provider <> Ret p) /\
  AuthFactory "google" = Ret GoogleAuth /\
  AuthFactory "yandex" = Ret YandexAuth /\
  Customer_String (NewCustomer GoogleAuth) = "Customer: Google Customer" /\
  Seller_String (NewSeller GoogleAuth) = "Seller: Google Seller" /\
  Customer_String (NewCustomer YandexAuth) = "Customer: Yandex Customer" /\
  Seller_String (NewSeller YandexAuth) = "Seller: Yandex Seller".
Proof.
  intros Hg Hy.
  assert (Hpanic : AuthFactory provider = Panic ("unknown provider " +:+ provider)).
  { unfold AuthFactory.
    apply String.eqb_neq in Hg. apply String.eqb_neq in Hy.
    rewrite Hg, Hy. reflexivity. }
  split; [exact Hpanic | ].
  split; [intros p; rewrite Hpanic; discriminate | ].
  repeat split.
Qed.

Lemma AuthFactory_unknown_panics_witness :
  AuthFactory "github" = Panic "unknown provider github" /\
  forall p : Provider, AuthFactory "github" <> Ret p.
Proof.
  destruct (AuthFactory_unknown_panics "github") as (Hpanic & Hnone & _).
  - discriminate.
  - discriminate.
  - split; [exact Hpanic | exact Hnone].
Defined.

(** ** Singleton *)

(** C2: let [N >= 1] goroutines call [getSingleton] and take their steps in
    any order [sched], some calls overlapping and some starting after others
    have returned.  In the state [s] reached: the initializer has printed at
    most once; every call that has returned has returned the very value of
    [singleton], which is non-nil and was assigned by the one run of the
    initializer, so all calls return the same reference; when no goroutine
    can take a step every call has returned and the initializer has run
    exactly once; and no interleaving is longer than [8 * N] steps, so every
    call does return. *)
Theorem getSingleton_once (N : nat) (sched : list nat) (s : state) :
  (1 <= N)%nat ->
  run sched (initial N) = Some s ->
  (stdout s = [] \/ stdout s = ["Initialize singleton"]) /\
  (forall (i : nat) (v : option positive),
      goroutines s !! i = Some (Returned v) ->
      stdout s = ["Initialize singleton"] /\
      exists a : positive, v = Some a /\ singleton s = Some a) /\
  (forall (i j : nat) (v v' : option positive),
      goroutines s !! i = Some (Returned v) ->
      goroutines s !! j = Some (Returned v') ->
      v = v') /\
  ((forall i : nat, getSingleton_step i s = None) ->
   stdout s = ["Initialize singleton"] /\
   forall i : nat, (i < N)%nat -> exists a : positive,
       goroutines s !! i = Some (Returned (Some a)) /\ singleton s = Some a) /\
  (length sched <= 8 * N)%nat.
Proof.
  intros HN Hrun.
  pose proof (run_invariant sched _ _ (initial_invariant N) Hrun) as Hinv.
  destruct (run_work_left sched _ _ Hrun) as [Hwork Hlen].
  rewrite work_left_initial in Hwork.
  cbn [initial goroutines] in Hlen. rewrite length_replicate in Hlen.
  assert (Hret : forall (i : nat) (v : option positive),
             goroutines s !! i = Some (Returned v) ->
             stdout s = ["Initialize singleton"] /\
             exists a : positive, v = Some a /\ singleton s = Some a)
    by (intros i v; apply returned_initialised, Hinv).
  assert (Hall : (forall i : nat, getSingleton_step i s = None) ->
                 forall i : nat, (i < N)%nat -> exists a : positive,
                     goroutines s !! i = Some (Returned (Some a)) /\
                     singleton s = Some a).
  { intros Hstuck i Hi.
    destruct (lookup_lt_is_Some_2 (goroutines s) i) as [p Hp]; [lia | ].
    destruct (stuck_returned s Hinv Hstuck i p Hp) as [v ->].
    destruct (Hret i v Hp) as (_ & a & -> & Hsg). eauto. }
  split; [apply invariant_stdout, Hinv | ].
  split; [exact Hret | ].
  split.
  - intros i j v v' Hi Hj.
    destruct (Hret i v Hi) as (_ & a & -> & Ha).
    destruct (Hret j v' Hj) as (_ & b & -> & Hb). congruence.
  - split; [ | lia].
    intros Hstuck. split; [ | exact (Hall Hstuck)].
    destruct (Hall Hstuck O) as (a & Ha & _); [lia | ].
    apply (Hret O _ Ha).
Qed.

Lemma getSingleton_once_witness :
  let s := {| singleton := Some 1%positive; once_done := true; once_m := false;
              stdout := ["Initialize singleton"]; next_addr := 2%positive;
              goroutines := [Returned (Some 1%positive); Returned (Some 1%positive)] |} in
  run [0; 1; 0; 0; 0; 0; 0; 0; 0; 1; 1; 1; 1]%nat (initial 2) = Some s /\
  (forall i : nat, getSingleton_step i s = None) /\
  stdout s = ["Initialize singleton"] /\
  forall i : nat, (i < 2)%nat -> exists a : positive,
      goroutines s !! i = Some (Returned (Some a)) /\ singleton s = Some a.
Proof.
  intros s.
  assert (Hstuck : forall i : nat, getSingleton_step i s = None)
    by (intros [ | [ | i]]; reflexivity).
  split; [reflexivity | split; [exact Hstuck | ]].
  destruct (getSingleton_once 2 [0; 1; 0; 0; 0; 0; 0; 0; 0; 1; 1; 1; 1]%nat s)
    as (_ & _ & _ & Hdone & _); [lia | reflexivity | ].
  exact (Hdone Hstuck).
Defined.

(** ** The model on the inputs of [main] and at its edges *)

Example main_folder_String :
  Folder_String {| Name := "root" |}
    [ FilePtr {| Name := "file1" |};
      FilePtr {| Name := "file2" |};
      FolderPtr {| Name := "subfolder" |}
        [ FilePtr {| Name := "file3" |}; FilePtr {| Name := "file4" |} ] ] =
  Ret ("root" +:+ nl +:+ "    file1" +:+ nl +:+ "    file2" +:+ nl +:+
       "    subfolder" +:+ nl +:+ "        file3" +:+ nl +:+ "        file4" +:+ nl).
Proof. reflexivity. Qed.

Example main_heap_render :
  WriteEntry_at 3 main_heap (Some 1%positive) ("" : Builder) {| Level := 0 |} =
  Some (WriteEntry main_folder ("" : Builder) {| Level := 0 |}).
Proof. reflexivity. Qed.

Example main_heap_nodes :
  nodes_at 3 main_heap (Some 1%positive) = list_to_set [1; 2; 3; 4; 5; 6]%positive.
Proof. vm_compute. reflexivity. Qed.

Example main_heap_Clone_nodes :
  match Clone_at 3 main_heap (Some 1%positive) with
  | Some (Ret (x, h')) =>
      x = 7%positive /\
      nodes_at 3 h' (Some x) = list_to_set [7; 8; 9; 10; 11; 12]%positive
  | _ => False
  end.
Proof. vm_compute. split; reflexivity. Qed.

(** A negative level makes [strings.Repeat] panic before anything is
    written. *)
Example negative_Level_panics :
  WriteEntry (FilePtr {| Name := "file1" |}) ("" : Builder) {| Level := -1 |} =
  ("", Panic "strings: negative Repeat count").
Proof. reflexivity. Qed.

(** A nil child is reached after the lines before it have been written. *)
Example nil_child_panics :
  WriteEntry (FolderPtr {| Name := "root" |} [FilePtr {| Name := "file1" |}; NilNode])
    ("" : Builder) {| Level := 0 |} =
  ("root" +:+ nl +:+ "    file1" +:+ nl, Panic nil_dereference) /\
  Clone (FolderPtr {| Name := "root" |} [FilePtr {| Name := "file1" |}; NilNode]) =
  Panic nil_dereference.
Proof. split; reflexivity. Qed.

(** * Further properties of the code *)

(** ** Rendering *)

(** X1: a Folder with no children renders exactly as a File of the same
    name does, on every sink and at every level: the dump cannot tell an
    empty folder from a file. *)
Theorem empty_Folder_renders_as_File {W : Type} `{HW : Writer W}
  (f : File) (w : W) (opts : WriteOpts) :
  WriteEntry (FolderPtr f []) w opts = WriteEntry (FilePtr f) w opts /\
  Clone (FolderPtr f []) <> Clone (FilePtr f).
Proof.
  split; [ | discriminate].
  cbn [WriteEntry range_WriteEntry].
  destruct (File_WriteEntry f w opts) as [w1 [[e | ] | m]]; reflexivity.
Qed.

(** X2: a level that is negative, or whose indent would be longer than an
    [int] can say, makes [WriteEntry] of a File or Folder panic in
    [strings.Repeat] before anything is written: the sink is left as it
    was. *)
Theorem Level_out_of_range_panics {W : Type} `{HW : Writer W}
  (n : Node) (w : W) (lvl : Z) :
  n <> NilNode ->
  lvl < 0 \/ maxInt < 4 * lvl ->
  exists m : string,
    WriteEntry n w {| Level := lvl |} = (w, Panic m) /\
    (lvl < 0 -> m = "strings: negative Repeat count") /\
    (0 <= lvl -> m = "strings: Repeat output length overflow").
Proof.
  intros Hn Hlvl.
  assert (Hfile : forall f : File, exists m : string,
             File_WriteEntry f w {| Level := lvl |} = (w, Panic m) /\
             (lvl < 0 -> m = "strings: negative Repeat count") /\
             (0 <= lvl -> m = "strings: Repeat output length overflow")).
  { intros f. unfold File_WriteEntry, Repeat. cbn [Level].
    destruct (Z.ltb_spec lvl 0) as [Hneg | Hpos].
    - eexists. split; [reflexivity | split; [reflexivity | lia]].
    - change (Z.of_nat (String.length "    ")) with 4.
      destruct (Z.ltb_spec maxInt (4 * lvl)) as [Hov | Hfit]; [ | lia].
      eexists. split; [reflexivity | split; [lia | reflexivity]]. }
  destruct n as [ | f | f Children]; [congruence | apply Hfile | ].
  destruct (Hfile f) as (m & Hrun & Hm). exists m. split; [ | exact Hm].
  cbn [WriteEntry]. rewrite Hrun. reflexivity.
Qed.

Lemma Level_out_of_range_panics_witness :
  WriteEntry main_folder ("" : Builder) {| Level := -1 |} =
  ("", Panic "strings: negative Repeat count") /\
  WriteEntry main_folder ("" : Builder) {| Level := 2 ^ 61 |} =
  ("", Panic "strings: Repeat output length overflow").
Proof.
  split.
  - destruct (Level_out_of_range_panics main_folder ("" : Builder) (-1))
      as (m & Hrun & Hneg & _); [discriminate | left; lia | ].
    rewrite Hrun, Hneg by lia. reflexivity.
  - destruct (Level_out_of_range_panics main_folder ("" : Builder) (2 ^ 61))
      as (m & Hrun & _ & Hov); [discriminate | right; unfold maxInt; lia | ].
    rewrite Hrun, Hov by lia. reflexivity.
Defined.






Lemma attempts_length {W : Type} `{HW : Writer W} (ps : list string) (w : W) :
  (length (attempts ps w) <= length ps)%nat.
Proof.
  revert w. induction ps as [ | p ps IH]; intros w; cbn [attempts length]; [lia | ].
  destruct (Write w p) as [w' [e | ]]; cbn [length]; [lia | ].
  specialize (IH w'). lia.
Qed.

Lemma range_script_length (opts : WriteOpts) (Children : list Node) :
  Forall (fun v => forall o : WriteOpts,
              (length (script v o).1 <= node_count v)%nat /\
              ((script v o).2 = Ret None -> length (script v o).1 = node_count v))
         Children ->
  (length (range_script Children opts).1 <=
   foldr (fun v k => (node_count v + k)%nat) O Children)%nat /\
  ((range_script Children opts).2 = Ret None ->
   length (range_script Children opts).1 =
   foldr (fun v k => (node_count v + k)%nat) O Children).
Proof.
  induction 1 as [ | v vs Hv _ IH]; [split; reflexivity | ].
  rewrite range_script_cons. cbn [foldr].
  destruct (Hv opts) as [Hle Heq].
  destruct (script v opts) as [ps [[e | ] | m]]; cbn [fst snd] in *;
    try (split; [lia | discriminate]).
  rewrite length_app, (Heq eq_refl). destruct IH as [IHle IHeq].
  split; [lia | ]. intros Hr. rewrite (IHeq Hr). reflexivity.
Qed.

Lemma script_length (n : Node) :
  forall opts : WriteOpts,
    (length (script n opts).1 <= node_count n)%nat /\
    ((script n opts).2 = Ret None -> length (script n opts).1 = node_count n).
Proof.
  induction n as [ | f | f Children IH] using Node_nested_ind; intros opts.
  - split; [reflexivity | discriminate].
  - change (script (FilePtr f) opts) with (File_script f opts).
    rewrite File_script_eq.
    destruct (Repeat "    " (Level opts)); cbn; split; (lia || discriminate || reflexivity).
  - rewrite script_Folder by (apply Forall_forall; intros; apply WriteEntry_replay).
    rewrite File_script_eq. cbn [node_count].
    destruct (Repeat "    " (Level opts)) as [indent | m]; cbn [fst snd length];
      [ | split; [lia | discriminate]].
    destruct (range_script_length {| Level := wrap (Level opts + 1) |} Children IH)
      as [Hle Heq].
    cbn [app length]. split; [lia | ]. intros Hr. rewrite (Heq Hr). reflexivity.
Qed.

(** X4: on any sink, [WriteEntry] makes at most one [Write] per File or
    Folder node of the tree, and exactly one per node when it returns a nil
    error. *)
Theorem WriteEntry_write_count {W : Type} `{HW : Writer W}
  (T : Node) (w : W) (opts : WriteOpts) :
  let '(wl, r) := WriteEntry T ((w, []) : Logged W) opts in
  (length wl.2 <= node_count T)%nat /\
  (r = Ret None -> length wl.2 = node_count T).
Proof.
  rewrite (WriteEntry_replay T (Logged W)).
  destruct (script_length T opts) as [Hle Heq].
  destruct (script T opts) as [ps r0]. cbn [fst snd] in *.
  unfold replay. rewrite feed_Logged. cbn [app].
  pose proof (attempts_length ps w) as Hatt.
  pose proof (attempts_shape ps w) as Hshape.
  destruct (feed ps w) as [w' [e0 | ]]; cbn [fst snd] in *.
  - split; [lia | discriminate].
  - rewrite Hshape, length_map. split; [lia | exact Heq].
Qed.

(** ** Cloning *)

Lemma range_Clone_nil (vs : list Node) :
  Forall (fun v => tree v = false -> Clone v = Panic nil_dereference) vs ->
  forallb tree vs = false ->
  forall (i : nat) (cs : list Node),
    (i + length vs <= length cs)%nat ->
    range_Clone Clone i vs cs = Panic nil_dereference.
Proof.
  induction 1 as [ | v vs Hv _ IH]; intros Hall i cs Hlen; [discriminate | ].
  cbn [forallb] in Hall. cbn [range_Clone length] in *.
  destruct (tree v) eqn:Htv.
  - rewrite (Clone_tree v Htv).
    destruct (Nat.ltb_spec i (length cs)) as [_ | Hge]; [ | lia].
    apply IH; [exact Hall | rewrite length_insert; lia].
  - rewrite (Hv eq_refl). reflexivity.
Qed.

(** X5: [Clone] returns exactly on the trees without a nil node, and then
    returns an equal tree; with a nil interface value anywhere in the
    structure it panics with a nil dereference.  The assignment
    [clone.Children[i] = ...] is never out of range. *)
Theorem Clone_returns_or_nil_panics (T : Node) :
  Clone T = if tree T then Ret T else Panic nil_dereference.
Proof.
  destruct (tree T) eqn:Ht; [apply Clone_tree, Ht | ].
  induction T as [ | f | f Children IH] using Node_nested_ind.
  - reflexivity.
  - discriminate.
  - cbn [Clone tree] in *.
    rewrite (range_Clone_nil Children); [reflexivity | | exact Ht | ].
    + eapply Forall_impl; [exact IH | ]. cbn. auto.
    + unfold make. rewrite length_replicate. lia.
Qed.

Lemma set_child_Ret (h h' : heap) (c : loc) (i : nat) (x : option loc) :
  set_child h c i x = Ret h' ->
  exists f cs, h !! c = Some (FolderObj f cs) /\
               h' = <[c := FolderObj f (<[i := x]> cs)]> h.
Proof.
  unfold set_child. intros Hset.
  destruct (h !! c) as [[f | f cs] | ]; try discriminate.
  destruct (i <? length cs)%nat; [ | discriminate].
  injection Hset as <-. eauto.
Qed.

Lemma range_Clone_at_preserves (k : nat) (c : loc) :
  preserves k ->
  forall (vs : list (option loc)) (i : nat) (h h' : heap),
    range_Clone_at (Clone_at k) c i vs h = Some (Ret h') ->
    c ∈ (dom h : gset positive) ->
    (c ∈ (dom h' : gset positive)) /\
    forall l, l ∈ (dom h : gset positive) -> l <> c -> h' !! l = h !! l.
Proof.
  intros Hk. induction vs as [ | v vs IH]; intros i h h' Hrun Hc; cbn [range_Clone_at] in Hrun.
  - injection Hrun as <-. auto.
  - destruct (Clone_at k h v) as [[[x h1] | m] | ] eqn:Hcl; try discriminate.
    destruct (Hk h v x h1 Hcl) as (_ & _ & Hag1).
    destruct (set_child h1 c i (Some x)) as [h2 | m] eqn:Hset; [ | discriminate].
    apply set_child_Ret in Hset as (f & cs & Hc1 & ->).
    destruct (IH _ _ _ Hrun) as [Hc' Hag'].
    + rewrite dom_insert_L. set_solver.
    + split; [exact Hc' | ]. intros l Hl Hne.
      rewrite Hag'.
      * rewrite lookup_insert_ne by congruence. apply Hag1, Hl.
      * rewrite dom_insert_L. apply elem_of_union_r.
        apply elem_of_dom. rewrite (Hag1 l Hl). apply elem_of_dom, Hl.
      * exact Hne.
Qed.

Lemma Clone_at_preserves_all (k : nat) : preserves k.
Proof.
  induction k as [ | k IH]; intros h v x h' Hcl; [discriminate | ].
  cbn [Clone_at] in Hcl.
  destruct v as [l | ]; [ | discriminate].
  destruct (h !! l) as [[f | f Children] | ] eqn:Hl; [ | | discriminate].
  - unfold alloc in Hcl. injection Hcl as <- <-.
    pose proof (is_fresh (dom h : gset positive)) as Hfresh.
    split; [exact Hfresh | split].
    + rewrite dom_insert_L. set_solver.
    + intros a Ha. apply lookup_insert_ne. intros Heq. rewrite <- Heq in Ha. contradiction.
  - unfold alloc in Hcl.
    pose proof (is_fresh (dom h : gset positive)) as Hfresh.
    cbv zeta in Hcl.
    set (c := fresh (dom h : gset positive)) in Hcl, Hfresh.
    unfold set_Name in Hcl. rewrite lookup_insert_eq, insert_insert_eq in Hcl.
    destruct (range_Clone_at (Clone_at k) c 0 Children _) as [[h3 | m] | ] eqn:Hrun;
      try discriminate.
    injection Hcl as <- <-.
    destruct (range_Clone_at_preserves k c IH _ _ _ _ Hrun) as [Hc Hag].
    + rewrite dom_insert_L. set_solver.
    + split; [exact Hfresh | split; [exact Hc | ]].
      intros a Ha. rewrite Hag.
      * apply lookup_insert_ne. intros Heq. rewrite <- Heq in Ha. contradiction.
      * rewrite dom_insert_L. set_solver.
      * intros Heq. rewrite Heq in Ha. contradiction.
Qed.

(** X6: whatever the heap holds (shared or cyclic structures included), a
    call of [Clone] that returns has changed no object that existed before
    it, and the address it returns was not in use before and holds an object
    now. *)
Theorem Clone_at_preserves (fuel : nat) (h : heap) (v : option loc) (x : loc) (h' : heap) :
  Clone_at fuel h v = Some (Ret (x, h')) ->
  (x ∉ (dom h : gset positive)) /\
  is_Some (h' !! x) /\
  forall (l : loc) (o : object), h !! l = Some o -> h' !! l = Some o.
Proof.
  intros Hcl. destruct (Clone_at_preserves_all fuel h v x h' Hcl) as (Hx & Hx' & Hag).
  split; [exact Hx | split; [apply elem_of_dom, Hx' | ]].
  intros l o Hl. rewrite Hag; [exact Hl | apply elem_of_dom; eauto].
Qed.

Lemma Clone_at_preserves_witness :
  let h' : heap :=
    list_to_map
      [ (1%positive, FolderObj {| Name := "d" |} [Some 2; Some 2]%positive);
        (2%positive, FileObj {| Name := "f" |});
        (3%positive, FolderObj {| Name := "d" |} [Some 4; Some 5]%positive);
        (4%positive, FileObj {| Name := "f" |});
        (5%positive, FileObj {| Name := "f" |}) ] in
  Clone_at 2 shared_heap (Some 1%positive) = Some (Ret (3%positive, h')) /\
  (3%positive ∉ (dom shared_heap : gset positive)) /\
  is_Some (h' !! 3%positive) /\
  forall (l : loc) (o : object), shared_heap !! l = Some o -> h' !! l = Some o.
Proof.
  intros h'.
  assert (Hrun : Clone_at 2 shared_heap (Some 1%positive) = Some (Ret (3%positive, h')))
    by (vm_compute; reflexivity).
  split; [exact Hrun | ].
  exact (Clone_at_preserves 2 shared_heap (Some 1%positive) 3%positive h' Hrun).
Defined.

Lemma range_Clone_at_size (k : nat) (h0 : heap) (c : loc)
  (vs : list (option loc)) (Children : list Node) :
  c ∉ (dom h0 : gset positive) ->
  Forall2 (repr (dom h0) h0) vs Children ->
  Forall (allocates k) Children ->
  forall (i : nat) (h h' : heap),
    (forall l, l ∈ (dom h0 : gset positive) -> h !! l = h0 !! l) ->
    range_Clone_at (Clone_at k) c i vs h = Some (Ret h') ->
    size h' = (size h + foldr (fun v n => (node_count v + n)%nat) O Children)%nat.
Proof.
  intros Hfresh. induction 1 as [ | v n vs Children Hv _ IH];
    intros Hall i h h' Hag Hrun; cbn [range_Clone_at foldr] in *.
  - injection Hrun as <-. lia.
  - inversion Hall as [ | ? ? Hn Hrest]; subst.
    destruct (Clone_at k h v) as [[[x h1] | m] | ] eqn:Hcl; try discriminate.
    destruct (Clone_at_preserves_all k h v x h1 Hcl) as (_ & _ & Hag1).
    pose proof (agree_dom _ _ Hag) as Hsub.
    assert (Hvh : repr (dom h) h v n).
    { apply repr_weaken with (A := (dom h0 : gset positive)) (h := h0); assumption. }
    pose proof (Hn h v x h1 Hvh Hcl) as Hsize1.
    destruct (set_child h1 c i (Some x)) as [h2 | m] eqn:Hset; [ | discriminate].
    apply set_child_Ret in Hset as (f & cs & Hc1 & ->).
    assert (Hag2 : forall l, l ∈ (dom h0 : gset positive) ->
                          <[c := FolderObj f (<[i := Some x]> cs)]> h1 !! l = h0 !! l).
    { intros l Hl. rewrite lookup_insert_ne.
      - rewrite Hag1 by (apply Hsub, Hl). apply Hag, Hl.
      - intros Heq. rewrite <- Heq in Hl. contradiction. }
    rewrite (IH Hrest _ _ _ Hag2 Hrun).
    rewrite map_size_insert_Some by eauto. lia.
Qed.

Lemma Clone_at_allocates (n : Node) : forall k : nat, allocates k n.
Proof.
  induction n as [ | f | f Children IH] using Node_nested_ind;
    intros k h v x h' Hr Hcl; inversion Hr; subst;
    (destruct k as [ | k]; [discriminate | ]); cbn [Clone_at] in Hcl;
    [discriminate | | ];
    match goal with H : h !! _ = _ |- _ => rewrite H in Hcl end; unfold alloc in Hcl.
  - injection Hcl as <- <-.
    rewrite map_size_insert_None; [cbn [node_count]; lia | ].
    apply not_elem_of_dom, is_fresh.
  - match goal with H : Forall2 _ vs Children |- _ => rename H into Hvs end.
    cbv zeta in Hcl.
    pose proof (is_fresh (dom h : gset positive)) as Hfresh.
    set (c := fresh (dom h : gset positive)) in Hcl, Hfresh.
    unfold set_Name in Hcl. rewrite lookup_insert_eq, insert_insert_eq in Hcl.
    destruct (range_Clone_at (Clone_at k) c 0 vs _) as [[h3 | m] | ] eqn:Hrun;
      try discriminate.
    injection Hcl as <- <-.
    rewrite (range_Clone_at_size k h c vs Children Hfresh Hvs) with (i := O) (h' := h3)
      (h := <[c := FolderObj {| Name := Name f |} (replicate (length vs) None)]> h).
    + rewrite map_size_insert_None by (apply not_elem_of_dom, Hfresh).
      cbn [node_count]. lia.
    + eapply Forall_impl; [exact IH | ]. cbn. auto.
    + intros a Ha. apply lookup_insert_ne. intros Heq. rewrite <- Heq in Ha.
      contradiction.
    + exact Hrun.
Qed.

(** X7: a call of [Clone] on a root of the tree [T] that returns has
    allocated exactly one object for each node of [T]: the heap grows by the
    number of nodes of the tree, also when the original shares objects
    between its branches. *)
Theorem Clone_at_node_count (T : Node) (fuel : nat) (h : heap) (v : option loc)
  (x : loc) (h' : heap) :
  repr (dom h) h v T ->
  Clone_at fuel h v = Some (Ret (x, h')) ->
  size h' = (size h + node_count T)%nat.
Proof. apply Clone_at_allocates. Qed.

Lemma repr_shared_heap :
  repr (dom shared_heap) shared_heap (Some 1%positive)
    (FolderPtr {| Name := "d" |} [FilePtr {| Name := "f" |}; FilePtr {| Name := "f" |}]).
Proof.
  assert (Hin : forall l o, shared_heap !! l = Some o -> l ∈ (dom shared_heap : gset positive))
    by (intros l o Hl; apply elem_of_dom; eauto).
  eapply repr_Folder; [eapply Hin | | ]; [reflexivity | reflexivity | ].
  repeat constructor; eapply Hin; reflexivity.
Qed.

Lemma Clone_at_node_count_witness :
  exists (x : loc) (h' : heap),
    Clone_at 2 shared_heap (Some 1%positive) = Some (Ret (x, h')) /\
    size shared_heap = 2%nat /\ size h' = 5%nat.
Proof.
  destruct (Clone_at 2 shared_heap (Some 1%positive)) as [[[x h'] | m] | ] eqn:Hrun;
    [ | discriminate Hrun .. ].
  exists x, h'. split; [reflexivity | split; [reflexivity | ]].
  apply (Clone_at_node_count _ 2 shared_heap (Some 1%positive) x h' repr_shared_heap Hrun).
Defined.

(** ** Functional options *)

Lemma default_last_cons {A} (x y : A) (l : list A) :
  default x (last (y :: l)) = default y (last l).
Proof.
  destruct l as [ | z l]; [reflexivity | ]. rewrite last_cons_cons.
  destruct (proj2 (last_is_Some (z :: l))) as [u ->]; [discriminate | reflexivity].
Qed.

Lemma range_opts_settings (ss : list setting) :
  forall c : config,
    range_opts (map option_of ss) c =
    Ret {| addr := default (addr c) (last (addrs_of ss));
           dburi := default (dburi c) (last (dburis_of ss));
           timeout := timeout c;
           logFile := logFile c |}.
Proof.
  induction ss as [ | s ss IH]; intros c.
  - destruct c; reflexivity.
  - destruct s as [a | d]; cbn [map option_of SetAddr SetDBUri range_opts];
      rewrite IH; cbn [addr dburi timeout logFile];
      unfold addrs_of, dburis_of; cbn [omap list_omap];
      rewrite ?default_last_cons; reflexivity.
Qed.

(** X8: whatever calls of [SetAddr] and [SetDBUri] are passed, in whatever
    order and number, [NewConfig] returns the config whose [addr] is the
    argument of the last [SetAddr] (empty if there is none), whose [dburi] is
    the argument of the last [SetDBUri] (empty if there is none), and whose
    [timeout] and [logFile] are still zero and empty; [String] prints it with
    [timeout:0] and an empty [logFile]. *)
Theorem NewConfig_last_setting_wins (ss : list setting) :
  let c := {| addr := default "" (last (addrs_of ss));
              dburi := default "" (last (dburis_of ss));
              timeout := 0;
              logFile := "" |} in
  NewConfig (map option_of ss) = Ret c /\
  config_String c =
  "config {addr:" +:+ default "" (last (addrs_of ss)) +:+
  ", dburi:" +:+ default "" (last (dburis_of ss)) +:+ ", timeout:0, logFile:}".
Proof.
  split; [apply range_opts_settings | reflexivity].
Qed.

(** X9: [NewConfig] panics exactly when one of the options passed is a nil
    function; otherwise it returns, the options applied from left to right,
    so that passing two lists of options one after the other is running the
    second list on the config the first one gives. *)
Theorem NewConfig_nil_option (opts : list opt) :
  (None ∈ opts -> NewConfig opts = Panic nil_dereference) /\
  (None ∉ opts -> exists c : config, NewConfig opts = Ret c) /\
  (forall (more : list opt) (c : config),
      NewConfig opts = Ret c -> NewConfig (opts ++ more) = range_opts more c).
Proof.
  unfold NewConfig. generalize {| addr := ""; dburi := ""; timeout := 0; logFile := "" |}.
  induction opts as [ | [o | ] opts IH]; intros c0.
  - split; [intros Hin; inversion Hin | ].
    split; [intros _; exists c0; reflexivity | ].
    intros more c Hc. injection Hc as <-. reflexivity.
  - destruct (IH (o c0)) as (Hnil & Hsome & Happ).
    split; [ | split].
    + intros Hin. apply elem_of_cons in Hin as [Heq | Hin]; [discriminate | ].
      apply Hnil, Hin.
    + intros Hnot. apply Hsome. intros Hin. apply Hnot. right. exact Hin.
    + exact Happ.
  - split; [reflexivity | split].
    + intros Hnot. exfalso. apply Hnot. left.
    + intros more c Hc. discriminate.
Qed.

(** ** Customers and sellers *)

(** X10: the printed form of a customer or seller tells which of the two it
    is and what its name is: two customers (two sellers) print alike only if
    they are equal, a customer never prints as a seller does, and the
    customers and sellers the two providers make print differently. *)
Theorem String_identifies :
  (forall c1 c2 : Customer, Customer_String c1 = Customer_String c2 -> c1 = c2) /\
  (forall s1 s2 : Seller, Seller_String s1 = Seller_String s2 -> s1 = s2) /\
  (forall (c : Customer) (s : Seller), Customer_String c <> Seller_String s) /\
  (forall p q : Provider,
      Customer_String (NewCustomer p) = Customer_String (NewCustomer q) \/
      Seller_String (NewSeller p) = Seller_String (NewSeller q) ->
      p = q).
Proof.
  split; [ | split; [ | split]].
  - intros [n1] [n2] Heq. unfold Customer_String in Heq. cbn [Customer_Name] in Heq.
    apply (inj (String.append "Customer: ")) in Heq. congruence.
  - intros [n1] [n2] Heq. unfold Seller_String in Heq. cbn [Seller_Name] in Heq.
    apply (inj (String.append "Seller: ")) in Heq. congruence.
  - intros [n1] [n2] Heq. discriminate Heq.
  - intros [ | ] [ | ] [Heq | Heq]; try reflexivity; discriminate Heq.
Qed.

(** ** Singleton *)

Lemma step_after_done (i : nat) (s s' : state) :
  invariant s ->
  once_done s = true ->
  getSingleton_step i s = Some s' ->
  once_done s' = true /\ singleton s' = singleton s /\ stdout s' = stdout s /\
  next_addr s' = next_addr s.
Proof.
  intros Hinv Hdn Hstep. unfold getSingleton_step in Hstep.
  destruct (goroutines s !! i) as [p | ] eqn:Hi; [ | discriminate].
  pose proof (inv_local s Hinv i p Hi) as Hloc.
  destruct p; cbn in Hloc;
    try (destruct Hloc as (Hfalse & _); congruence);
    try destruct (once_m s); try discriminate;
    injection Hstep as <-; cbn; auto.
Qed.

(** X11: once [once.done] is set (in particular once a call has returned),
    no further step of any goroutine, in any order, assigns [singleton],
    allocates, prints or unsets [once.done]: the instance every later call
    returns is the one already there. *)
Theorem singleton_stable (N : nat) (before after : list nat) (s s' : state) :
  run before (initial N) = Some s ->
  once_done s = true ->
  run after s = Some s' ->
  once_done s' = true /\ singleton s' = singleton s /\ stdout s' = stdout s /\
  next_addr s' = next_addr s /\
  forall (i : nat) (v : option positive),
    goroutines s' !! i = Some (Returned v) -> v = singleton s.
Proof.
  intros Hbefore Hdn Hafter.
  pose proof (run_invariant before _ _ (initial_invariant N) Hbefore) as Hinv.
  assert (Hstable : once_done s' = true /\ singleton s' = singleton s /\
                    stdout s' = stdout s /\ next_addr s' = next_addr s).
  { clear Hbefore. revert s Hinv Hdn Hafter.
    induction after as [ | i after IH]; intros s Hinv Hdn Hafter; cbn [run] in Hafter.
    - injection Hafter as <-. auto.
    - destruct (getSingleton_step i s) as [s1 | ] eqn:Hstep; [ | discriminate].
      destruct (step_after_done i s s1 Hinv Hdn Hstep) as (Hdn1 & Hsg1 & Hout1 & Hnx1).
      destruct (IH s1 (step_invariant _ _ _ Hinv Hstep) Hdn1 Hafter)
        as (Hdn' & Hsg' & Hout' & Hnx').
      repeat split; congruence. }
  destruct Hstable as (Hdn' & Hsg' & Hout' & Hnx').
  repeat split; try assumption.
  intros i v Hi.
  pose proof (run_invariant after _ _ Hinv Hafter) as Hinv'.
  destruct (inv_local s' Hinv' i _ Hi) as [_ ->]. exact Hsg'.
Qed.

Lemma singleton_stable_witness :
  let s := {| singleton := Some 1%positive; once_done := true; once_m := false;
              stdout := ["Initialize singleton"]; next_addr := 2%positive;
              goroutines := [Returned (Some 1%positive); AtDo] |} in
  let s' := {| singleton := Some 1%positive; once_done := true; once_m := false;
               stdout := ["Initialize singleton"]; next_addr := 2%positive;
               goroutines := [Returned (Some 1%positive); Returned (Some 1%positive)] |} in
  run [1; 1]%nat s = Some s' /\
  forall (i : nat) (v : option positive),
    goroutines s' !! i = Some (Returned v) -> v = singleton s.
Proof.
  intros s s'. split; [reflexivity | ].
  apply (singleton_stable 2 [0; 0; 0; 0; 0; 0; 0; 0]%nat [1; 1]%nat s s');
    reflexivity.
Defined.

(** X12: in every interleaving at most one goroutine is inside the
    initializer, or anywhere between [Lock] and [Unlock] of [once.m], at a
    time; and a goroutine is there only while the mutex is held. *)
Theorem initializer_exclusive (N : nat) (sched : list nat) (s : state)
  (i j : nat) (p q : pc) :
  run sched (initial N) = Some s ->
  goroutines s !! i = Some p ->
  goroutines s !! j = Some q ->
  holds_m p = true ->
  (holds_m q = true -> i = j) /\ once_m s = true /\
  (in_f p = true -> once_done s = false).
Proof.
  intros Hrun Hi Hj Hp.
  pose proof (run_invariant sched _ _ (initial_invariant N) Hrun) as Hinv.
  split; [ | split].
  - intros Hq. apply (inv_exclusive s Hinv i j p q); assumption.
  - apply (inv_locked s Hinv). eauto.
  - intros Hf. pose proof (inv_local s Hinv i p Hi) as Hloc.
    destruct p; try discriminate; cbn in Hloc; tauto.
Qed.

Lemma initializer_exclusive_witness :
  let s := {| singleton := None; once_done := false; once_m := true;
              stdout := ["Initialize singleton"]; next_addr := 1%positive;
              goroutines := [AtAssign; AtLock] |} in
  run [0; 1; 0; 0; 0]%nat (initial 2) = Some s /\
  (holds_m AtLock = true -> O = 1%nat) /\ once_m s = true /\
  (in_f AtAssign = true -> once_done s = false).
Proof.
  intros s. split; [reflexivity | ].
  apply (initializer_exclusive 2 [0; 1; 0; 0; 0]%nat s 0 1 AtAssign AtLock);
    reflexivity.
Defined.

Lemma first_enabled_None (ids : list nat) (s : state) :
  first_enabled ids s = None -> forall i, i ∈ ids -> getSingleton_step i s = None.
Proof.
  induction ids as [ | a ids IH]; intros Hnone i Hin; [inversion Hin | ].
  cbn [first_enabled] in Hnone.
  destruct (getSingleton_step a s) eqn:Ha; [discriminate | ].
  apply elem_of_cons in Hin as [-> | Hin]; [exact Ha | apply IH; assumption].
Qed.

Lemma first_enabled_Some (ids : list nat) (s : state) (i : nat) :
  first_enabled ids s = Some i -> is_Some (getSingleton_step i s).
Proof.
  induction ids as [ | a ids IH]; intros Hsome; [discriminate | ].
  cbn [first_enabled] in Hsome.
  destruct (getSingleton_step a s) eqn:Ha; [ | apply IH, Hsome].
  injection Hsome as <-. rewrite Ha. eauto.
Qed.

Lemma eager_completes (fuel : nat) :
  forall s : state,
    invariant s -> (work_left s <= fuel)%nat ->
    exists s', run (eager fuel s) s = Some s' /\ all_returned s'.
Proof.
  induction fuel as [ | k IH]; intros s Hinv Hwork.
  - exists s. split; [reflexivity | ].
    unfold all_returned. apply (stuck_returned s Hinv). intros i.
    destruct (getSingleton_step i s) as [s1 | ] eqn:Hstep; [ | reflexivity].
    apply step_work_left in Hstep as [Hlt _]. lia.
  - cbn [eager].
    destruct (first_enabled (seq 0 (length (goroutines s))) s) as [i | ] eqn:Hfirst.
    + destruct (first_enabled_Some _ _ _ Hfirst) as [s1 Hstep]. rewrite Hstep.
      cbn [run]. rewrite Hstep.
      apply IH; [eapply step_invariant; eassumption | ].
      apply step_work_left in Hstep as [Hlt _]. lia.
    + exists s. split; [reflexivity | ].
      unfold all_returned. apply (stuck_returned s Hinv). intros i.
      destruct (decide (i < length (goroutines s))%nat) as [Hlt | Hge].
      * apply (first_enabled_None _ _ Hfirst). apply elem_of_seq. lia.
      * unfold getSingleton_step. rewrite lookup_ge_None_2 by lia. reflexivity.
Qed.

(** X13: from every state an interleaving can reach, the calls can all run
    to their return: always stepping the first goroutine that is not
    blocked takes the program, within the steps that are left, to a state
    where every goroutine has returned. *)
Theorem getSingleton_completes (N : nat) (sched : list nat) (s : state) :
  run sched (initial N) = Some s ->
  exists s' : state,
    run (sched ++ eager (work_left s) s) (initial N) = Some s' /\
    all_returned s' /\
    length (goroutines s') = N.
Proof.
  intros Hrun.
  pose proof (run_invariant sched _ _ (initial_invariant N) Hrun) as Hinv.
  destruct (eager_completes (work_left s) s Hinv (le_n _)) as (s' & Hrest & Hall).
  exists s'.
  assert (Happ : forall (a b : list nat) (s0 s1 : state),
             run a s0 = Some s1 -> run (a ++ b) s0 = run b s1).
  { induction a as [ | i a IHa]; intros b s0 s1 Ha; cbn [run app] in *.
    - injection Ha as <-. reflexivity.
    - destruct (getSingleton_step i s0); [apply IHa, Ha | discriminate]. }
  rewrite (Happ _ _ _ _ Hrun). split; [exact Hrest | split; [exact Hall | ]].
  destruct (run_work_left _ _ _ Hrun) as [_ Hlen].
  destruct (run_work_left _ _ _ Hrest) as [_ Hlen'].
  rewrite Hlen', Hlen. cbn [initial goroutines]. apply length_replicate.
Qed.

Lemma getSingleton_completes_witness :
  exists s' : state,
    run ([0; 1; 0; 0]%nat ++ [0; 0; 0; 0; 0; 1; 1; 1; 1]%nat) (initial 2) = Some s' /\
    all_returned s' /\
    length (goroutines s') = 2%nat.
Proof.
  apply (getSingleton_completes 2 [0; 1; 0; 0]%nat
           {| singleton := None; once_done := false; once_m := true;
              stdout := []; next_addr := 1%positive;
              goroutines := [AtPrintln; AtLock] |}).
  reflexivity.
Defined.

(** X14: once [once.done] is set, a call of [getSingleton] that starts takes
    the fast path: two steps of its own, whatever the other goroutines are
    doing and whether or not the mutex is still held, and it returns the
    non-nil [singleton] without touching [once.m]. *)
Theorem getSingleton_fast_path (N : nat) (sched : list nat) (s : state) (i : nat) :
  run sched (initial N) = Some s ->
  once_done s = true ->
  goroutines s !! i = Some AtDo ->
  exists (s' : state) (a : positive),
    run [i; i] s = Some s' /\
    goroutines s' !! i = Some (Returned (Some a)) /\
    singleton s = Some a /\
    once_m s' = once_m s /\
    forall j : nat, j <> i -> goroutines s' !! j = goroutines s !! j.
Proof.
  intros Hrun Hdn Hi.
  pose proof (run_invariant sched _ _ (initial_invariant N) Hrun) as Hinv.
  destruct (inv_done s Hinv Hdn) as [[a Ha] _].
  pose proof (lookup_lt_Some _ _ _ Hi) as Hlt.
  assert (Hstep1 : getSingleton_step i s = Some (goto s i AtReturn)).
  { unfold getSingleton_step. rewrite Hi, Hdn. reflexivity. }
  assert (Hstep2 : getSingleton_step i (goto s i AtReturn) =
                   Some (goto (goto s i AtReturn) i (Returned (singleton s)))).
  { unfold getSingleton_step. cbn [goroutines goto].
    rewrite list_lookup_insert_eq by exact Hlt. reflexivity. }
  exists (goto (goto s i AtReturn) i (Returned (singleton s))), a.
  cbn [run]. rewrite Hstep1, Hstep2. cbn [goroutines goto once_m].
  split; [reflexivity | ].
  split; [rewrite list_lookup_insert_eq, Ha by (rewrite length_insert; exact Hlt);
          reflexivity | ].
  split; [exact Ha | split; [reflexivity | ]].
  intros j Hj. rewrite !list_lookup_insert_ne by congruence. reflexivity.
Qed.

Lemma getSingleton_fast_path_witness :
  let s := {| singleton := Some 1%positive; once_done := true; once_m := true;
              stdout := ["Initialize singleton"]; next_addr := 2%positive;
              goroutines := [AtUnlock; AtDo] |} in
  exists (s' : state) (a : positive),
    run [1; 1]%nat s = Some s' /\
    goroutines s' !! 1%nat = Some (Returned (Some a)) /\
    singleton s = Some a /\
    once_m s' = once_m s /\
    forall j : nat, j <> 1%nat -> goroutines s' !! j = goroutines s !! j.
Proof.
  intros s.
  apply (getSingleton_fast_path 2 [0; 0; 0; 0; 0; 0]%nat s 1); reflexivity.
Defined.

(** ** Nil children in a render *)

Lemma range_script_nil (vs : list Node) (d : nat) :
  Forall (fun v => tree v = false ->
                   4 * (Z.of_nat d + Z.of_nat (depth v)) <= maxInt ->
                   (script v {| Level := Z.of_nat d |}).2 = Panic nil_dereference) vs ->
  Forall (fun v => 4 * (Z.of_nat d + Z.of_nat (depth v)) <= maxInt) vs ->
  forallb tree vs = false ->
  (range_script vs {| Level := Z.of_nat d |}).2 = Panic nil_dereference.
Proof.
  induction 1 as [ | v vs Hv _ IH]; intros Hfit Hall; [discriminate | ].
  inversion Hfit as [ | ? ? Hfv Hfvs]; subst.
  cbn [forallb] in Hall. rewrite range_script_cons.
  destruct (tree v) eqn:Htv.
  - rewrite (script_within v Htv d Hfv). cbn [fst snd]. apply IH; assumption.
  - specialize (Hv eq_refl Hfv).
    destruct (script v {| Level := Z.of_nat d |}) as [ps r0]. cbn [snd] in Hv.
    rewrite Hv. reflexivity.
Qed.

Lemma script_nil (n : Node) :
  tree n = false ->
  forall d : nat,
    4 * (Z.of_nat d + Z.of_nat (depth n)) <= maxInt ->
    (script n {| Level := Z.of_nat d |}).2 = Panic nil_dereference.
Proof.
  induction n as [ | f | f Children IH] using Node_nested_ind; intros Ht d Hd.
  - reflexivity.
  - discriminate.
  - rewrite script_Folder by (apply Forall_forall; intros; apply WriteEntry_replay).
    rewrite File_script_within by lia. cbn [Level snd fst tree] in *.
    destruct Children as [ | v vs]; [discriminate | ].
    rewrite wrap_id by (rewrite depth_Folder_cons in Hd; unfold minInt, maxInt in *; lia).
    replace (Z.of_nat d + 1) with (Z.of_nat (S d)) by lia.
    apply range_script_nil; [ | | exact Ht].
    + eapply Forall_impl; [exact IH | ]. cbn. intros u Hu Htu Hfu. apply Hu; assumption.
    + apply Forall_forall. intros u Hu.
      pose proof (depth_child f (v :: vs) u Hu). lia.
Qed.

(** X15: a Folder with a nil interface value anywhere among its
    descendants has no printed form: [String] panics with a nil dereference
    when the render reaches it (the levels fitting in an [int]). *)
Theorem Folder_String_nil_panics (f : File) (Children : list Node) :
  tree (FolderPtr f Children) = false ->
  within_int 0 (FolderPtr f Children) ->
  Folder_String f Children = Panic nil_dereference.
Proof.
  intros Ht [_ Hd]. unfold Folder_String.
  rewrite (WriteEntry_replay (FolderPtr f Children) Builder), replay_Builder.
  change 0 with (Z.of_nat 0) at 1.
  rewrite (script_nil (FolderPtr f Children) Ht O Hd). reflexivity.
Qed.

Lemma Folder_String_nil_panics_witness :
  Folder_String {| Name := "root" |}
    [FilePtr {| Name := "file1" |}; FolderPtr {| Name := "sub" |} [NilNode]] =
  Panic nil_dereference.
Proof.
  apply Folder_String_nil_panics;
    [reflexivity | split; [lia | vm_compute; discriminate]].
Defined.
